(** * qObstack: the growable object accumulator of qDecoder

    A shallow embedding of [src/qObstack.c] and the properties of its
    operations: growth ([qObstackGrow], [qObstackGrowStr],
    [qObstackGrowStrf]), finalisation ([qObstackFinish],
    [qObstackGetFinal]), the size queries and teardown.  The file
    operations of [src/qFile.c] follow, with conventions of their own.

    Conventions of the embedding.
    - A C pointer is an [option]: [None] is [NULL], [Some x] points to an
      object whose current contents are [x].  A function that mutates
      the object behind its handle returns the new contents next to its
      C return value.
    - A byte buffer is the [list byte] of the bytes readable from the
      pointer up to the end of the object it points into.
    - Operations whose C behaviour is undefined (reading through [NULL],
      reading or writing beyond an object) yield [Undefined].
    - The outcome of each [malloc] is an argument of the operation that
      performs it: [None] is a failed allocation, [Some junk] a fresh
      block whose indeterminate initial contents are given by [junk].
    - The counters of the entry list and [size_t] quantities are kept
      as mathematical integers ([Z]): the header that fixes the types
      of the counters is not part of the sources.  [int] is taken to be
      32 bits wide, and what a function returns as [int] is the value
      converted to that type. *)

From Stdlib Require Import ZArith List Lia Bool.
From Stdlib Require String.
From Stdlib.Strings Require Import Byte.
From Equations Require Import Equations.
Import ListNotations.

Open Scope Z_scope.

(** ** Outcomes of C computations *)

Inductive outcome (A : Type) : Type :=
| Ret (a : A)
| Undefined.

Arguments Ret {A} a.
Arguments Undefined {A}.

Definition bind {A B : Type} (c : outcome A) (k : A -> outcome B) : outcome B :=
  match c with
  | Ret a => k a
  | Undefined => Undefined
  end.

Notation "x <- c ;; k" := (bind c (fun x => k))
  (at level 61, c at next level, right associativity).
Notation "' p <- c ;; k" := (bind c (fun x => let 'p := x in k))
  (at level 61, p pattern, c at next level, right associativity).

(** ** Memory primitives of the C library *)

Definition zlength {A : Type} (l : list A) : Z := Z.of_nat (length l).

(** The contents of storage that has not been written yet. *)
Definition indeterminate := nat -> byte.

Definition block (junk : indeterminate) (n : nat) : list byte :=
  map junk (seq 0 n).

(** [malloc(n)]: [NULL], or a fresh block of [n] indeterminate bytes. *)
Definition malloc (n : Z) (m : option indeterminate) : option (list byte) :=
  match m with
  | None => None
  | Some junk => Some (block junk (Z.to_nat n))
  end.

(** Writing the bytes [src] into the object [dst] from offset [pos] on. *)
Definition overwrite (dst : list byte) (pos : nat) (src : list byte) : list byte :=
  firstn pos dst ++ src ++ skipn (pos + length src) dst.

(** [memcpy(dst + dp, src, n)] on a destination object [dst]. *)
Definition memcpy (dst : list byte) (dp : Z) (src : list byte) (n : Z)
  : outcome (list byte) :=
  if (0 <=? dp) && (0 <=? n) && (dp + n <=? zlength dst) && (n <=? zlength src)
  then Ret (overwrite dst (Z.to_nat dp) (firstn (Z.to_nat n) src))
  else Undefined.

(** [*(dst + dp) = b]. *)
Definition store (dst : list byte) (dp : Z) (b : byte) : outcome (list byte) :=
  if (0 <=? dp) && (dp <? zlength dst)
  then Ret (overwrite dst (Z.to_nat dp) [b])
  else Undefined.

(** [strlen] scans for the first zero byte; running off the end of the
    object is undefined. *)
Fixpoint strlen_from (s : list byte) : outcome Z :=
  match s with
  | [] => Undefined
  | b :: s' =>
      if Byte.eqb b x00 then Ret 0
      else n <- strlen_from s' ;; Ret (n + 1)
  end.

Definition strlen (str : option (list byte)) : outcome Z :=
  match str with
  | None => Undefined
  | Some s => strlen_from s
  end.

(** [vsnprintf(str, size, format, ap)] for a [size] within the object
    [str], given the complete output [out] that the format produces: at
    most [size - 1] bytes of it are written, followed by a zero byte;
    the rest of [str] is not touched. *)
Definition vsnprintf (str : list byte) (size : nat) (out : list byte) : list byte :=
  match size with
  | O => str
  | S k => overwrite str 0 (firstn k out ++ [x00])
  end.

(** The text of a buffer as a C string: the bytes before its first zero
    byte. *)
Fixpoint c_text (s : list byte) : list byte :=
  match s with
  | [] => []
  | b :: s' => if Byte.eqb b x00 then [] else b :: c_text s'
  end.

(** ** The entry list behind an obstack *)

(** Modelled from the spec: the structures of qDecoder.h, which is not
    among the sources.  A chunk reference "exposes object: bytes and
    size: int" and carries the label it was stored under; the list
    keeps its chunks in insertion order with "size, count: running
    totals" and the position of its iteration cursor. *)
Module Q_NLOBJ.
Record t : Type := Build {
  name : String.string;
  object : list byte;
  size : Z
}.
End Q_NLOBJ.

Module Q_ENTRY.
Record t : Type := Build {
  num : Z;
  size : Z;
  objs : list Q_NLOBJ.t;
  cursor : nat
}.
End Q_ENTRY.

(** Modelled from the spec: [qEntryInit] (qEntry.c is not among the
    sources).  "create() -> EntryList: empty ordered list, size 0,
    count 0"; it allocates, so it can fail. *)
Definition qEntryInit (alloc_ok : bool) : option Q_ENTRY.t :=
  if alloc_ok
  then Some (Q_ENTRY.Build 0 0 [] 0)
  else None.

(** Modelled from the spec: [qEntryPut] with [replace = false], the only
    way the obstack calls it.  "adds a new chunk at the end holding a
    copy of bytes[0..size); increases the list's running size and
    count; never overwrites existing entries".  A failed allocation
    reports [false] and adds nothing; copying [size] bytes out of a
    shorter object is undefined. *)
Definition qEntryPut (entry : Q_ENTRY.t) (name : String.string) (object : list byte)
    (size : Z) (alloc_ok : bool) : outcome (bool * Q_ENTRY.t) :=
  if negb alloc_ok then Ret (false, entry)
  else if (0 <=? size) && (size <=? zlength object)
  then Ret (true,
            Q_ENTRY.Build
              (Q_ENTRY.num entry + 1)
              (Q_ENTRY.size entry + size)
              (Q_ENTRY.objs entry
                 ++ [Q_NLOBJ.Build name (firstn (Z.to_nat size) object) size])
              (Q_ENTRY.cursor entry))
  else Undefined.

(** Modelled from the spec: [qEntryNext].  "stateful forward iteration
    cursor over chunks in insertion order; ... next advances it". *)
Definition qEntryNext (entry : Q_ENTRY.t) : option Q_NLOBJ.t * Q_ENTRY.t :=
  match nth_error (Q_ENTRY.objs entry) (Q_ENTRY.cursor entry) with
  | Some obj =>
      (Some obj,
       Q_ENTRY.Build (Q_ENTRY.num entry) (Q_ENTRY.size entry)
         (Q_ENTRY.objs entry) (S (Q_ENTRY.cursor entry)))
  | None => (None, entry)
  end.

(** Modelled from the spec: [qEntryFirst].  "first resets the cursor". *)
Definition qEntryFirst (entry : Q_ENTRY.t) : option Q_NLOBJ.t * Q_ENTRY.t :=
  qEntryNext
    (Q_ENTRY.Build (Q_ENTRY.num entry) (Q_ENTRY.size entry)
       (Q_ENTRY.objs entry) 0).

(** ** The obstack *)

(** The two members that qObstack.c uses: [obstack->stack] and
    [obstack->final]. *)
Record Q_OBSTACK : Type := Build_Q_OBSTACK {
  stack : Q_ENTRY.t;
  final : option (list byte)
}.

(** [qObstackInit]: the [memset] leaves [final] null. *)
Definition qObstackInit (alloc_obstack alloc_stack : bool) : option Q_OBSTACK :=
  if negb alloc_obstack then None
  else match qEntryInit alloc_stack with
       | None => None
       | Some entry => Some (Build_Q_OBSTACK entry None)
       end.

Definition qObstackGrow (obstack : option Q_OBSTACK) (object : option (list byte))
    (size : Z) (alloc_ok : bool) : outcome (bool * option Q_OBSTACK) :=
  match obstack, object with
  | Some ob, Some bytes =>
      if size <=? 0 then Ret (false, obstack)
      else
        '(r, entry) <- qEntryPut (stack ob) String.EmptyString bytes size alloc_ok ;;
        Ret (r, Some (Build_Q_OBSTACK entry (final ob)))
  | _, _ => Ret (false, obstack)
  end.

Definition qObstackGrowStr (obstack : option Q_OBSTACK) (str : option (list byte))
    (alloc_ok : bool) : outcome (bool * option Q_OBSTACK) :=
  size <- strlen str ;;
  qObstackGrow obstack str size alloc_ok.

(** How many objects the loop of [qObstackFinish] may still visit. *)
Definition remaining (entry : Q_ENTRY.t) (obj : option Q_NLOBJ.t) : nat :=
  (length (Q_ENTRY.objs entry) - Q_ENTRY.cursor entry
   + match obj with Some _ => 1 | None => 0 end)%nat.

(** The copying loop of [qObstackFinish]:
    [for(obj = ...; obj; obj = qEntryNext(stack)) { memcpy; dp += size }]. *)
Equations? finish_loop (entry : Q_ENTRY.t) (obj : option Q_NLOBJ.t)
    (buf : list byte) (dp : Z) : outcome (Q_ENTRY.t * list byte * Z)
    by wf (remaining entry obj) lt :=
  finish_loop entry None buf dp := Ret (entry, buf, dp);
  finish_loop entry (Some o) buf dp
    with memcpy buf dp (Q_NLOBJ.object o) (Q_NLOBJ.size o) => {
    | Undefined := Undefined;
    | Ret buf' :=
        finish_loop (snd (qEntryNext entry)) (fst (qEntryNext entry))
          buf' (dp + Q_NLOBJ.size o) }.
Proof.
  unfold remaining, qEntryNext.
  destruct (nth_error (Q_ENTRY.objs entry) (Q_ENTRY.cursor entry)) eqn:E; simpl.
  - assert (Q_ENTRY.cursor entry < length (Q_ENTRY.objs entry))%nat
      by (apply nth_error_Some; congruence).
    lia.
  - lia.
Qed.

Definition qObstackFinish (obstack : option Q_OBSTACK) (m : option indeterminate)
  : outcome (option (list byte) * option Q_OBSTACK) :=
  match obstack with
  | None => Ret (None, None)
  | Some ob =>
      (* the previous final buffer is freed before the allocation *)
      match malloc (Q_ENTRY.size (stack ob) + 1) m with
      | None => Ret (None, Some (Build_Q_OBSTACK (stack ob) None))
      | Some buf =>
          let first := qEntryFirst (stack ob) in
          '(entry, buf', dp) <- finish_loop (snd first) (fst first) buf 0 ;;
          buf'' <- store buf' dp x00 ;;
          Ret (Some buf'', Some (Build_Q_OBSTACK entry (Some buf'')))
      end
  end.

Definition qObstackGetFinal (obstack : option Q_OBSTACK) (m : option indeterminate)
  : outcome (option (list byte) * option Q_OBSTACK) :=
  match obstack with
  | None => Ret (None, None)
  | Some ob =>
      match final ob with
      | None =>
          '(_, obstack') <- qObstackFinish obstack m ;;
          Ret (match obstack' with Some ob' => final ob' | None => None end,
               obstack')
      | Some buf => Ret (Some buf, obstack)
      end
  end.

Definition INT_MAX : Z := 2147483647.

(** The conversion to [int] of a value that may be out of its range:
    reduction modulo 2^32 into the range, as the usual compilers
    define it. *)
Definition int_cast (z : Z) : Z :=
  (z + (INT_MAX + 1)) mod (2 * (INT_MAX + 1)) - (INT_MAX + 1).

(** [int qObstackGetSize(...)]: [obstack->stack->size] as an [int]. *)
Definition qObstackGetSize (obstack : option Q_OBSTACK) : Z :=
  match obstack with
  | None => 0
  | Some ob => int_cast (Q_ENTRY.size (stack ob))
  end.

(** [int qObstackGetNum(...)]: [obstack->stack->num] as an [int]. *)
Definition qObstackGetNum (obstack : option Q_OBSTACK) : Z :=
  match obstack with
  | None => 0
  | Some ob => int_cast (Q_ENTRY.num (stack ob))
  end.

(** [qObstackFree]: after a successful call the entry list, the final
    buffer and the obstack itself are released, so no object is left
    behind the handle. *)
Definition qObstackFree (obstack : option Q_OBSTACK) : bool * option Q_OBSTACK :=
  match obstack with
  | None => (false, None)
  | Some _ => (true, None)
  end.

(** [qObstackGrowStrf]: the formatting engine of the C library is a
    parameter; [render format arglist] is the complete output of the
    conversion, without a terminator. *)
Section Formatted.

Variables format va_list : Type.
Variable render : format -> va_list -> list byte.

Definition qObstackGrowStrf (obstack : option Q_OBSTACK) (fmt : format)
    (arglist : va_list) (junk : indeterminate) (alloc_ok : bool)
  : outcome (bool * option Q_OBSTACK) :=
  match obstack with
  | None => Ret (false, None)
  | Some _ =>
      (* char str[1024]; vsnprintf(str, sizeof(str), format, arglist); *)
      let str := vsnprintf (block junk 1024) 1024 (render fmt arglist) in
      size <- strlen (Some str) ;;
      qObstackGrow obstack (Some str) size alloc_ok
  end.

End Formatted.

Arguments qObstackGrowStrf {format va_list} render obstack fmt arglist junk alloc_ok.

(** ** What an obstack holds *)

(** The chunks of an entry list, in insertion order. *)
Definition chunks (entry : Q_ENTRY.t) : list (list byte) :=
  map Q_NLOBJ.object (Q_ENTRY.objs entry).

Definition total_bytes (cs : list (list byte)) : Z :=
  fold_right (fun c acc => zlength c + acc) 0 cs.

Definition size_ok (o : Q_NLOBJ.t) : Prop :=
  Q_NLOBJ.size o = zlength (Q_NLOBJ.object o).

(** The bookkeeping of the entry list agrees with the chunks it holds. *)
Record entry_inv (entry : Q_ENTRY.t) : Prop := {
  inv_num : Q_ENTRY.num entry = zlength (Q_ENTRY.objs entry);
  inv_size : Q_ENTRY.size entry = total_bytes (chunks entry);
  inv_objs : Forall size_ok (Q_ENTRY.objs entry)
}.

Definition obstack_inv (ob : Q_OBSTACK) : Prop := entry_inv (stack ob).

(** The entry list with its cursor moved. *)
Definition with_cursor (entry : Q_ENTRY.t) (c : nat) : Q_ENTRY.t :=
  Q_ENTRY.Build (Q_ENTRY.num entry) (Q_ENTRY.size entry) (Q_ENTRY.objs entry) c.

(** The obstack after one more chunk [c] has been put on it. *)
Definition pushed (ob : Q_OBSTACK) (c : list byte) : Q_OBSTACK :=
  Build_Q_OBSTACK
    (Q_ENTRY.Build
       (Q_ENTRY.num (stack ob) + 1)
       (Q_ENTRY.size (stack ob) + zlength c)
       (Q_ENTRY.objs (stack ob) ++ [Q_NLOBJ.Build String.EmptyString c (zlength c)])
       (Q_ENTRY.cursor (stack ob)))
    (final ob).




(** The objects the copying loop has still to visit. *)
Definition pending (entry : Q_ENTRY.t) (obj : option Q_NLOBJ.t) : list Q_NLOBJ.t :=
  match obj with
  | None => []
  | Some o => o :: skipn (Q_ENTRY.cursor entry) (Q_ENTRY.objs entry)
  end.

(** The states an obstack can be in: what [qObstackInit] returns, and
    what growing and finishing leave behind a live handle (the string
    forms of growth end in [qObstackGrow]). *)
Inductive reachable : Q_OBSTACK -> Prop :=
| reach_init (a1 a2 : bool) (ob : Q_OBSTACK) :
    qObstackInit a1 a2 = Some ob -> reachable ob
| reach_grow (ob ob' : Q_OBSTACK) (object : option (list byte)) (size : Z)
    (alloc_ok r : bool) :
    reachable ob ->
    qObstackGrow (Some ob) object size alloc_ok = Ret (r, Some ob') ->
    reachable ob'
| reach_finish (ob ob' : Q_OBSTACK) (m : option indeterminate)
    (r : option (list byte)) :
    reachable ob ->
    qObstackFinish (Some ob) m = Ret (r, Some ob') ->
    reachable ob'
| reach_getfinal (ob ob' : Q_OBSTACK) (m : option indeterminate)
    (r : option (list byte)) :
    reachable ob ->
    qObstackGetFinal (Some ob) m = Ret (r, Some ob') ->
    reachable ob'.

(** The reachable states together with what the cache goes back to:
    [cached_since ob (Some n)] when the latest call that computed a
    final buffer (a [qObstackFinish] that returned one, or a
    [qObstackGetFinal] that found no cached buffer and returned one)
    was made with [n] chunks on the obstack, and [cached_since ob None]
    when no buffer has been computed yet or a [qObstackFinish] has
    returned [NULL] since. *)
Inductive cached_since : Q_OBSTACK -> option nat -> Prop :=
| since_init (a1 a2 : bool) (ob : Q_OBSTACK) :
    qObstackInit a1 a2 = Some ob -> cached_since ob None
| since_grow (ob ob' : Q_OBSTACK) (object : option (list byte)) (size : Z)
    (alloc_ok r : bool) (k : option nat) :
    cached_since ob k ->
    qObstackGrow (Some ob) object size alloc_ok = Ret (r, Some ob') ->
    cached_since ob' k
| since_finish (ob ob' : Q_OBSTACK) (m : option indeterminate)
    (r : option (list byte)) (k : option nat) :
    cached_since ob k ->
    qObstackFinish (Some ob) m = Ret (r, Some ob') ->
    cached_since ob'
      (match r with
       | Some _ => Some (length (chunks (stack ob)))
       | None => None
       end)
| since_getfinal (ob ob' : Q_OBSTACK) (m : option indeterminate)
    (r : option (list byte)) (k : option nat) :
    cached_since ob k ->
    qObstackGetFinal (Some ob) m = Ret (r, Some ob') ->
    cached_since ob'
      (match final ob, r with
       | Some _, _ => k
       | None, Some _ => Some (length (chunks (stack ob)))
       | None, None => None
       end).

(** ** Sample data

    The string sample of the file header: "AB", then "CDE" through a
    format, then the three raw bytes "FGH". *)

Definition junk_ff : indeterminate := fun _ => xff.

Definition str_AB : list byte := [x41; x42; x00].
Definition str_CDE : list byte := [x43; x44; x45].
Definition raw_FGH : list byte := [x46; x47; x48].

(** A format engine that prints its format verbatim. *)
Definition render_verbatim (fmt : list byte) (_ : unit) : list byte := fmt.

Definition ob_fresh : Q_OBSTACK :=
  Build_Q_OBSTACK (Q_ENTRY.Build 0 0 [] 0) None.

Definition ob_AB : Q_OBSTACK := pushed ob_fresh [x41; x42].

Definition ob_sample : Q_OBSTACK :=
  pushed (pushed ob_AB str_CDE) raw_FGH.

(** [ob_AB] once finished. *)
Definition ob_AB_finished : Q_OBSTACK :=
  Build_Q_OBSTACK (with_cursor (stack ob_AB) 1) (Some [x41; x42; x00]).

(** A text of 1030 letters, longer than the scratch buffer. *)
Definition long_text : list byte := repeat x61 1030.


(** ** File handling (qFile.c)

    Conventions of this part.
    - A [FILE *] opened for reading is the [list byte] the stream still
      delivers before [fgetc] returns [EOF]; a null [FILE *] is [None].
    - What the system answers ([stat], [fopen], [popen], [flock], the
      counts of [read] and [write], each [malloc]) is an argument of the
      operation.
    - An [int] computation that leaves the range of [int] is
      undefined. *)

Definition int_of (z : Z) : outcome Z :=
  if (- INT_MAX - 1 <=? z) && (z <=? INT_MAX) then Ret z else Undefined.

(** *** qfReadFile, qfGetLine, qCmd *)

(** The locals of [qfReadFile] and [qfGetLine], and how many
    allocations the call has made. *)
Record read_state : Type := Build_read_state {
  memsize : Z;
  c_count : Z;
  string : option (list byte);
  mallocs : nat
}.

(** The first part of the loop body, the same in both functions: make
    room for one more character.  [None] stands for [return NULL]. *)
Definition grow_string (alloc : nat -> option indeterminate) (st : read_state)
  : outcome (option read_state) :=
  if c_count st =? 0 then
    match malloc (memsize st) (alloc (mallocs st)) with
    | None => Ret None
    | Some s =>
        Ret (Some (Build_read_state (memsize st) (c_count st) (Some s)
                     (S (mallocs st))))
    end
  else if c_count st =? memsize st - 1 then
    memsize' <- int_of (memsize st * 2) ;;
    n <- int_of (memsize' + 1) ;;
    match malloc n (alloc (mallocs st)) with
    | None => Ret None
    | Some stringtmp =>
        match string st with
        | None => Undefined
        | Some s =>
            tmp <- memcpy stringtmp 0 s (c_count st) ;;
            Ret (Some (Build_read_state memsize' (c_count st) (Some tmp)
                         (S (mallocs st))))
        end
    end
  else Ret (Some st).

(** [string[c_count++] = (char)c]. *)
Definition put_char (st : read_state) (c : byte) : outcome read_state :=
  match string st with
  | None => Undefined
  | Some s =>
      s' <- store s (c_count st) c ;;
      n <- int_of (c_count st + 1) ;;
      Ret (Build_read_state (memsize st) n (Some s') (mallocs st))
  end.

(** What follows the loop in both functions; [eof] tells whether the
    last [fgetc] returned [EOF]. *)
Definition end_string (st : read_state) (eof : bool) : outcome (option (list byte)) :=
  if (c_count st =? 0) && eof then Ret None
  else match string st with
       | None => Undefined
       | Some s => s' <- store s (c_count st) x00 ;; Ret (Some s')
       end.

Definition read_start : read_state := Build_read_state 1024 0 None 0.

(** The loop of [qfReadFile]: it ends at [EOF], or returns [NULL] from
    within; the second component is what is left in the stream. *)
Fixpoint qfReadFile_loop (alloc : nat -> option indeterminate) (fp : list byte)
    (st : read_state) : outcome (option read_state * list byte) :=
  match fp with
  | [] => Ret (Some st, [])
  | c :: rest =>
      r <- grow_string alloc st ;;
      match r with
      | None => Ret (None, rest)
      | Some st1 =>
          st2 <- put_char st1 c ;;
          qfReadFile_loop alloc rest st2
      end
  end.

Definition qfReadFile (fp : option (list byte)) (alloc : nat -> option indeterminate)
  : outcome (option (list byte) * option (list byte)) :=
  match fp with
  | None => Undefined
  | Some stream =>
      '(r, rest) <- qfReadFile_loop alloc stream read_start ;;
      match r with
      | None => Ret (None, Some rest)
      | Some st => str <- end_string st true ;; Ret (str, Some rest)
      end
  end.

(** The loop of [qfGetLine]: as above, and it also ends after a
    newline; the flag tells whether it ended at [EOF]. *)
Fixpoint qfGetLine_loop (alloc : nat -> option indeterminate) (fp : list byte)
    (st : read_state) : outcome (option (read_state * bool) * list byte) :=
  match fp with
  | [] => Ret (Some (st, true), [])
  | c :: rest =>
      r <- grow_string alloc st ;;
      match r with
      | None => Ret (None, rest)
      | Some st1 =>
          st2 <- put_char st1 c ;;
          if Byte.eqb c x0a then Ret (Some (st2, false), rest)
          else qfGetLine_loop alloc rest st2
      end
  end.

Definition qfGetLine (fp : option (list byte)) (alloc : nat -> option indeterminate)
  : outcome (option (list byte) * option (list byte)) :=
  match fp with
  | None => Undefined
  | Some stream =>
      '(r, rest) <- qfGetLine_loop alloc stream read_start ;;
      match r with
      | None => Ret (None, Some rest)
      | Some (st, eof) => str <- end_string st eof ;; Ret (str, Some rest)
      end
  end.

(** [qCmd]: [pipe] is what [popen] returned, the output of the command
    as a stream; [dup_ok] tells whether [strdup] finds storage. *)
Definition qCmd (pipe : option (list byte)) (alloc : nat -> option indeterminate)
    (dup_ok : bool) : outcome (option (list byte)) :=
  match pipe with
  | None => Ret None
  | Some _ =>
      '(str, _) <- qfReadFile pipe alloc ;;
      match str with
      | None => Ret (if dup_ok then Some [x00] else None)
      | Some s => Ret (Some s)
      end
  end.

(** *** qFileLoad, qSaveStr *)

(** The loop of [qFileLoad]:
    [for (tmp = sp, i = 0; (c = fgetc(fp)) != EOF; tmp++, i++) *tmp = c]. *)
Fixpoint qFileLoad_loop (fp : list byte) (sp : option (list byte)) (i : Z)
  : outcome (option (list byte) * Z) :=
  match fp with
  | [] => Ret (sp, i)
  | c :: rest =>
      match sp with
      | None => Undefined
      | Some s =>
          s' <- store s i c ;;
          i' <- int_of (i + 1) ;;
          qFileLoad_loop rest (Some s') i'
      end
  end.

(** [qFileLoad]: [st] is the size [stat] reports ([None] when it
    fails), [fp] the stream [fopen] returns, [m] the outcome of the
    [malloc], [size] the object behind the [size] pointer.  The result
    holds the returned buffer, the object behind [size] afterwards,
    and the stream if it is still open. *)
Definition qFileLoad (st : option Z) (fp : option (list byte))
    (m : option indeterminate) (size : option Z)
  : outcome (option (list byte) * option Z * option (list byte)) :=
  match st with
  | None => Ret (None, size, None)
  | Some st_size =>
      match fp with
      | None => Ret (None, size, None)
      | Some stream =>
          '(sp, i) <- qFileLoad_loop stream (malloc (st_size + 1) m) 0 ;;
          match sp with
          | None => Undefined
          | Some s =>
              s' <- store s i x00 ;;
              if negb (st_size =? i) then Ret (None, size, Some [])
              else Ret (Some s',
                        match size with Some _ => Some i | None => None end,
                        None)
          end
      end
  end.

(** A stream as [fopen] hands it to a writer: what the file holds, where
    the next byte goes, whether the stream may be written, and whether
    it was opened for appending. *)
Record FILE : Type := Build_FILE {
  contents : list byte;
  position : nat;
  writable : bool;
  append : bool
}.

(** A [+] among the characters that follow the first one of a mode. *)
Definition has_plus (flags : list byte) : bool := existsb (Byte.eqb x2b) flags.

(** [fopen(filepath, mode)] of the C library.  [file] is what the path
    names ([None]: nothing), [mode] the text of the mode string, [sys]
    whether the system grants the access.  "r" needs the file and may
    write only with "+"; "w" starts from an empty file; "a" writes at
    the end of what is there; any other mode is refused. *)
Definition fopen (file : option (list byte)) (mode : list byte) (sys : bool)
  : option FILE :=
  if negb sys then None
  else
    match mode with
    | x72 :: flags =>
        match file with
        | None => None
        | Some old => Some (Build_FILE old 0 (has_plus flags) false)
        end
    | x77 :: flags => Some (Build_FILE [] 0 true false)
    | x61 :: flags =>
        let old := match file with Some old => old | None => [] end in
        Some (Build_FILE old (length old) true true)
    | _ => None
    end.

(** [fputc(c, fp)]: when the stream may be written and the byte gets
    through ([ok]), it replaces the byte at the position, or is added
    at the end, and the position moves on; otherwise nothing changes.
    The caller below never looks at the result. *)
Definition fputc (c : byte) (fp : FILE) (ok : bool) : FILE :=
  if writable fp && ok then
    let pos := if append fp then length (contents fp) else position fp in
    Build_FILE (overwrite (contents fp) pos [c]) (S pos) (writable fp) (append fp)
  else fp.

(** The loop of [qSaveStr], [todo] being [spsize - i]:
    [for (i = 0; i < spsize; i++) fputc( *sp++, fp)].  [put_ok i] tells
    whether the byte of round [i] gets through. *)
Fixpoint qSaveStr_loop (todo : nat) (i : Z) (sp : option (list byte))
    (fp : FILE) (put_ok : Z -> bool) : outcome (Z * FILE) :=
  match todo with
  | O => Ret (i, fp)
  | S todo' =>
      match sp with
      | Some (b :: sp') =>
          qSaveStr_loop todo' (i + 1) (Some sp') (fputc b fp (put_ok i)) put_ok
      | _ => Undefined
      end
  end.

(** [qSaveStr]: the result holds the returned [int] and what the path
    names after the call. *)
Definition qSaveStr (sp : option (list byte)) (spsize : Z)
    (file : option (list byte)) (mode : list byte) (sys : bool)
    (put_ok : Z -> bool) : outcome (Z * option (list byte)) :=
  match fopen file mode sys with
  | None => Ret (-1, file)
  | Some fp =>
      '(i, fp') <- qSaveStr_loop (Z.to_nat spsize) 0 sp fp put_ok ;;
      Ret (i, Some (contents fp'))
  end.

(** *** qFileSend *)

Definition Q_FILESEND_CHUNK_SIZE : Z := 256 * 1024.

Definition SIZE_MAX : Z := 2 ^ 64 - 1.

(** Arithmetic in [size_t] wraps around. *)
Definition size_t_of (z : Z) : Z := z mod (SIZE_MAX + 1).

(** [read(fd, buf, count)] on a descriptor that still has [input] to
    deliver: an error when [limit] is negative, otherwise at most
    [count] and at most [limit] bytes from the front of the input. *)
Definition sys_read (limit count : Z) (input : list byte)
  : Z * list byte * list byte :=
  if limit <? 0 then (-1, [], input)
  else
    let n := Z.to_nat (Z.min count limit) in
    (zlength (firstn n input), firstn n input, skipn n input).

(** [write(fd, buf, count)]: an error when [limit] is negative,
    otherwise at most [count] and at most [limit] bytes of [buf] go to
    the end of the output. *)
Definition sys_write (limit : Z) (buf : list byte) (count : Z) (output : list byte)
  : Z * list byte :=
  if limit <? 0 then (-1, output)
  else
    let chunk := firstn (Z.to_nat (Z.min count limit)) buf in
    (zlength chunk, output ++ chunk).

(** The loop of [qFileSend]; [rd k] and [wr k] are the limits of the
    [read] and the [write] of round [k].  The result holds [sent] and
    the two descriptors; [None] only if the rounds outnumber [fuel]. *)
Fixpoint qFileSend_loop (fuel : nat) (rd wr : nat -> Z) (k : nat)
    (size sent : Z) (infd outfd : list byte)
  : option (Z * list byte * list byte) :=
  match fuel with
  | O => None
  | S fuel' =>
      if (size =? 0) || (sent <? size) then
        let sendsize :=
          if size_t_of (size - sent) <=? Q_FILESEND_CHUNK_SIZE
          then size_t_of (size - sent)
          else Q_FILESEND_CHUNK_SIZE in
        let '(retr, buf, infd') := sys_read (rd k) sendsize infd in
        if retr <=? 0 then Some (sent, infd', outfd)
        else
          let '(retw, outfd') := sys_write (wr k) buf retr outfd in
          if retw <=? 0 then Some (sent, infd', outfd')
          else
            let sent' := size_t_of (sent + retw) in
            if negb (retr =? retw) then Some (sent', infd', outfd')
            else qFileSend_loop fuel' rd wr (S k) size sent' infd' outfd'
      else Some (sent, infd, outfd)
  end.

Definition qFileSend (rd wr : nat -> Z) (outfd infd : list byte) (size : Z)
  : option (Z * list byte * list byte) :=
  qFileSend_loop (S (Z.to_nat size)) rd wr 0 size 0 infd outfd.

(** *** qFileLock, qFileUnlock *)

Inductive flock_op : Type := LOCK_SH | LOCK_EX | LOCK_UN.

(** [flock(fd, op)] on a descriptor nobody else has locked: [ret] is
    what the call returns, and when that is 0 the descriptor holds a
    lock afterwards unless [op] was [LOCK_UN]. *)
Definition flock (locked : Z -> bool) (fd : Z) (op : flock_op) (ret : Z)
  : Z * (Z -> bool) :=
  if ret =? 0
  then (0, fun d => if d =? fd
                    then match op with LOCK_UN => false | _ => true end
                    else locked d)
  else (ret, locked).

Definition qFileLock (locked : Z -> bool) (fd : Z) (sys : Z) : bool * (Z -> bool) :=
  let '(ret, locked') := flock locked fd LOCK_EX sys in
  if ret =? 0 then (true, locked') else (false, locked').

Definition qFileUnlock (locked : Z -> bool) (fd : Z) (sys : Z) : bool * (Z -> bool) :=
  let '(ret, locked') := flock locked fd LOCK_EX sys in
  if ret =? 0 then (true, locked') else (false, locked').

(** *** What the file operations are measured against *)

(** The buffer of [qfReadFile] and [qfGetLine] while it holds the
    characters [done]. *)
Definition string_holds (st : read_state) (done : list byte) : Prop :=
  c_count st = zlength done
  /\ 1024 <= memsize st
  /\ (done <> [] ->
      exists s, string st = Some s
                /\ memsize st <= zlength s
                /\ zlength done < memsize st
                /\ firstn (length done) s = done).

(** The first line of a stream, newline included, and what follows it. *)
Fixpoint first_line (fp : list byte) : list byte * list byte :=
  match fp with
  | [] => ([], [])
  | c :: rest =>
      if Byte.eqb c x0a then ([c], rest)
      else let '(line, rest') := first_line rest in (c :: line, rest')
  end.

(** Sample data of this part. *)

Definition alloc_always : nat -> option indeterminate := fun _ => Some junk_ff.
Definition alloc_never : nat -> option indeterminate := fun _ => None.

(** "ab", newline, "cd". *)
Definition two_lines : list byte := [x61; x62; x0a; x63; x64].

Definition io_full : nat -> Z := fun _ => Q_FILESEND_CHUNK_SIZE.

(** Reads that deliver two bytes at a time. *)
Definition io_pairs : nat -> Z := fun _ => 2.

Definition no_locks : Z -> bool := fun _ => false.

(** The modes "w", "a", "r" and "r+". *)
Definition mode_w : list byte := [x77].
Definition mode_a : list byte := [x61].
Definition mode_r_plus : list byte := [x72; x2b].

Definition put_always : Z -> bool := fun _ => true.

(** ** Lists and buffers *)

Lemma zlength_app {A : Type} (l1 l2 : list A) :
  zlength (l1 ++ l2) = zlength l1 + zlength l2.
Proof. unfold zlength. rewrite length_app. lia. Qed.

Lemma zlength_nonneg {A : Type} (l : list A) : 0 <= zlength l.
Proof. unfold zlength. lia. Qed.

Lemma firstn_exact {A : Type} (p q : list A) (n : nat) :
  length p = n -> firstn n (p ++ q) = p.
Proof.
  intros <-. rewrite firstn_app, Nat.sub_diag, firstn_all. simpl.
  apply app_nil_r.
Qed.

Lemma skipn_exact {A : Type} (p q : list A) (n : nat) :
  length p = n -> skipn n (p ++ q) = q.
Proof.
  intros <-. rewrite skipn_app, Nat.sub_diag, skipn_all. reflexivity.
Qed.

Lemma total_bytes_app (cs ds : list (list byte)) :
  total_bytes (cs ++ ds) = total_bytes cs + total_bytes ds.
Proof.
  induction cs as [|c cs IH]; simpl; [reflexivity | rewrite IH; lia].
Qed.

Lemma total_bytes_concat (cs : list (list byte)) :
  zlength (concat cs) = total_bytes cs.
Proof.
  induction cs as [|c cs IH]; simpl; [reflexivity |].
  rewrite zlength_app, IH. reflexivity.
Qed.


Lemma block_length (junk : indeterminate) (n : nat) : length (block junk n) = n.
Proof. unfold block. rewrite length_map, length_seq. reflexivity. Qed.

Lemma overwrite_length (dst : list byte) (pos : nat) (src : list byte) :
  (pos + length src <= length dst)%nat ->
  length (overwrite dst pos src) = length dst.
Proof.
  intros H. unfold overwrite.
  rewrite !length_app, length_firstn, length_skipn. lia.
Qed.

(** Two adjacent writes are one write of the concatenation. *)
Lemma overwrite_overwrite (dst : list byte) (pos : nat) (a b : list byte) :
  (pos + length a + length b <= length dst)%nat ->
  overwrite (overwrite dst pos a) (pos + length a) b = overwrite dst pos (a ++ b).
Proof.
  intros H. unfold overwrite at 1 3.
  assert (Hp : length (firstn pos dst ++ a) = (pos + length a)%nat)
    by (rewrite length_app, length_firstn; lia).
  unfold overwrite. rewrite (app_assoc (firstn pos dst) a).
  rewrite firstn_exact by exact Hp.
  rewrite <- (Nat.add_comm (length b)), <- skipn_skipn.
  rewrite (skipn_exact _ _ _ Hp), skipn_skipn.
  rewrite length_app, <- !app_assoc.
  do 3 f_equal. f_equal. lia.
Qed.

Lemma overwrite_nil (dst : list byte) (pos : nat) : overwrite dst pos [] = dst.
Proof.
  unfold overwrite. simpl. rewrite Nat.add_0_r. apply firstn_skipn.
Qed.

(** Filling a block from its start to its end leaves nothing of the
    former contents. *)
Lemma overwrite_whole (dst src : list byte) :
  length src = length dst -> overwrite dst 0 src = src.
Proof.
  intros H. unfold overwrite. simpl. rewrite H, skipn_all. apply app_nil_r.
Qed.

(** ** Strings *)

(** On a buffer that holds a zero byte, [strlen] is the length of its
    text. *)
Lemma strlen_from_text (s : list byte) :
  In x00 s -> strlen_from s = Ret (zlength (c_text s)).
Proof.
  induction s as [|b s IH]; simpl; [intros [] |].
  intros Hin. destruct (Byte.eqb b x00) eqn:E; [reflexivity |].
  destruct Hin as [Hb | Hin].
  - subst b. discriminate E.
  - rewrite (IH Hin). simpl. f_equal. unfold zlength. simpl length. lia.
Qed.

(** [strlen] is defined only on such a buffer. *)
Lemma strlen_from_defined (s : list byte) (n : Z) :
  strlen_from s = Ret n -> In x00 s /\ n = zlength (c_text s).
Proof.
  revert n. induction s as [|b s IH]; simpl; intros n H; [discriminate |].
  destruct (Byte.eqb b x00) eqn:E.
  - apply Byte.byte_dec_bl in E. injection H as <-. auto.
  - destruct (strlen_from s) as [k|] eqn:Es; simpl in H; [| discriminate].
    injection H as <-. destruct (IH k eq_refl) as [Hin ->].
    split; [right; exact Hin |]. unfold zlength. simpl length. lia.
Qed.

Lemma c_text_prefix (s : list byte) :
  firstn (length (c_text s)) s = c_text s.
Proof.
  induction s as [|b s IH]; simpl; [reflexivity |].
  destruct (Byte.eqb b x00); simpl; [reflexivity | rewrite IH; reflexivity].
Qed.

Lemma c_text_length (s : list byte) : (length (c_text s) <= length s)%nat.
Proof.
  induction s as [|b s IH]; simpl; [lia |].
  destruct (Byte.eqb b x00); simpl; lia.
Qed.

(** The text ends at the first zero byte, whatever follows it. *)
Lemma c_text_terminated (t rest : list byte) :
  c_text (t ++ x00 :: rest) = c_text t.
Proof.
  induction t as [|b t IH]; simpl; [reflexivity |].
  destruct (Byte.eqb b x00); [reflexivity | rewrite IH; reflexivity].
Qed.

Lemma c_text_zero_free (t : list byte) : ~ In x00 t -> c_text t = t.
Proof.
  induction t as [|b t IH]; simpl; intros H; [reflexivity |].
  destruct (Byte.eqb b x00) eqn:E.
  - apply Byte.byte_dec_bl in E. subst b. exfalso. apply H. left. reflexivity.
  - rewrite IH; [reflexivity | intros Hin; apply H; right; exact Hin].
Qed.

Lemma c_text_empty (s : list byte) :
  c_text s = [] <-> s = [] \/ exists rest, s = x00 :: rest.
Proof.
  destruct s as [|b s]; simpl.
  - split; auto.
  - destruct (Byte.eqb b x00) eqn:E; split.
    + intros _. right. apply Byte.byte_dec_bl in E. subst b. eauto.
    + reflexivity.
    + discriminate.
    + intros [H | [rest H]]; [discriminate |].
      injection H as -> _. discriminate E.
Qed.

Lemma c_text_firstn_empty (s : list byte) (n : nat) :
  c_text s = [] -> c_text (firstn n s) = [].
Proof.
  destruct s as [|b s]; destruct n; simpl; try reflexivity.
  destruct (Byte.eqb b x00); [reflexivity | discriminate].
Qed.

(** The scratch buffer after [vsnprintf]: 1024 bytes, the first 1023
    bytes of the output at most, a terminator, then what was there. *)
Lemma vsnprintf_scratch (junk : indeterminate) (out : list byte) :
  let str := vsnprintf (block junk 1024) 1024 out in
  length str = 1024%nat
  /\ In x00 str
  /\ c_text str = c_text (firstn 1023 out).
Proof.
  cbv zeta. unfold vsnprintf.
  assert (Hlen : (length (firstn 1023 out ++ [x00]) <= 1024)%nat).
  { rewrite length_app, length_firstn. cbn [length]. lia. }
  split; [| split].
  - rewrite overwrite_length; rewrite block_length; [reflexivity | lia].
  - unfold overwrite. cbn [firstn app]. rewrite <- app_assoc.
    apply in_or_app. right. left. reflexivity.
  - unfold overwrite. cbn [firstn app]. rewrite <- app_assoc.
    cbn [app]. apply c_text_terminated.
Qed.

(** ** Growing *)

Lemma zlength_firstn (bytes : list byte) (size : Z) :
  0 <= size <= zlength bytes -> zlength (firstn (Z.to_nat size) bytes) = size.
Proof.
  unfold zlength. intros H. rewrite length_firstn. lia.
Qed.

(** A successful [qObstackGrow] is exactly a push of [object[0..size)]. *)
Lemma qObstackGrow_true (obstack : option Q_OBSTACK) (object : option (list byte))
    (size : Z) (alloc_ok : bool) (obstack' : option Q_OBSTACK) :
  qObstackGrow obstack object size alloc_ok = Ret (true, obstack') ->
  exists ob bytes,
    obstack = Some ob /\ object = Some bytes /\ alloc_ok = true
    /\ 0 < size <= zlength bytes
    /\ obstack' = Some (pushed ob (firstn (Z.to_nat size) bytes)).
Proof.
  unfold qObstackGrow.
  destruct obstack as [ob|]; [| discriminate].
  destruct object as [bytes|]; [| discriminate].
  destruct (size <=? 0) eqn:Hs; [discriminate |].
  unfold qEntryPut. destruct alloc_ok; cbn [negb]; [| discriminate].
  destruct ((0 <=? size) && (size <=? zlength bytes)) eqn:Hr; [| discriminate].
  cbn [bind]. intros H. injection H as <-.
  apply andb_prop in Hr. destruct Hr as [H0 H1].
  exists ob, bytes. repeat split; try lia.
  unfold pushed. rewrite zlength_firstn by lia. reflexivity.
Qed.

Lemma qObstackGrow_pushed (ob : Q_OBSTACK) (bytes : list byte) (size : Z) :
  0 < size <= zlength bytes ->
  qObstackGrow (Some ob) (Some bytes) size true
  = Ret (true, Some (pushed ob (firstn (Z.to_nat size) bytes))).
Proof.
  intros H. unfold qObstackGrow, qEntryPut.
  replace (size <=? 0) with false by lia.
  replace ((0 <=? size) && (size <=? zlength bytes)) with true by lia.
  cbn [negb bind]. unfold pushed. rewrite zlength_firstn by lia. reflexivity.
Qed.

(** Only the first [size] bytes of the object matter to [qObstackGrow]. *)
Lemma qObstackGrow_trim (obstack : option Q_OBSTACK) (bytes : list byte)
    (size : Z) (alloc_ok : bool) :
  0 <= size <= zlength bytes ->
  qObstackGrow obstack (Some bytes) size alloc_ok
  = qObstackGrow obstack (Some (firstn (Z.to_nat size) bytes)) size alloc_ok.
Proof.
  intros H. unfold qObstackGrow, qEntryPut.
  destruct obstack as [ob|]; [| reflexivity].
  destruct (size <=? 0); [reflexivity |].
  destruct alloc_ok; cbn [negb]; [| reflexivity].
  rewrite zlength_firstn by lia.
  replace ((0 <=? size) && (size <=? zlength bytes)) with true by lia.
  replace ((0 <=? size) && (size <=? size)) with true by lia.
  rewrite firstn_firstn, Nat.min_id. reflexivity.
Qed.

(** A rejected call leaves the handle as it was. *)
Lemma qObstackGrow_zero (obstack : option Q_OBSTACK) (object : option (list byte))
    (size : Z) (alloc_ok : bool) :
  size <= 0 -> qObstackGrow obstack object size alloc_ok = Ret (false, obstack).
Proof.
  intros H. unfold qObstackGrow.
  destruct obstack, object; try reflexivity.
  replace (size <=? 0) with true by lia. reflexivity.
Qed.

(** The string forms, reduced to [qObstackGrow] on the text. *)
Lemma qObstackGrowStr_text (obstack : option Q_OBSTACK) (s : list byte)
    (alloc_ok : bool) :
  In x00 s ->
  qObstackGrowStr obstack (Some s) alloc_ok
  = qObstackGrow obstack (Some (c_text s)) (zlength (c_text s)) alloc_ok.
Proof.
  intros Hin. unfold qObstackGrowStr, strlen.
  rewrite (strlen_from_text s Hin). cbn [bind].
  rewrite qObstackGrow_trim.
  - unfold zlength. rewrite Nat2Z.id, c_text_prefix. reflexivity.
  - pose proof (c_text_length s). unfold zlength. lia.
Qed.

Lemma qObstackGrowStrf_text {format va_list : Type}
    (render : format -> va_list -> list byte) (ob : Q_OBSTACK) (fmt : format)
    (arglist : va_list) (junk : indeterminate) (alloc_ok : bool) :
  let text := c_text (firstn 1023 (render fmt arglist)) in
  qObstackGrowStrf render (Some ob) fmt arglist junk alloc_ok
  = qObstackGrow (Some ob) (Some text) (zlength text) alloc_ok.
Proof.
  cbv zeta. unfold qObstackGrowStrf.
  destruct (vsnprintf_scratch junk (render fmt arglist)) as (_ & Hin & Htext).
  cbv zeta in Hin, Htext.
  change (bind (strlen (Some ?s)) ?k) with (qObstackGrowStr (Some ob) (Some s) alloc_ok).
  rewrite (qObstackGrowStr_text _ _ _ Hin), Htext. reflexivity.
Qed.

Lemma pushed_inv (ob : Q_OBSTACK) (c : list byte) :
  obstack_inv ob -> obstack_inv (pushed ob c).
Proof.
  intros [Hn Hs Ho]. unfold obstack_inv, pushed. cbn [stack].
  split; unfold chunks; cbn [Q_ENTRY.num Q_ENTRY.size Q_ENTRY.objs].
  - rewrite zlength_app, Hn. reflexivity.
  - rewrite map_app, total_bytes_app, Hs. unfold chunks. simpl. lia.
  - apply Forall_app. split; [exact Ho |].
    constructor; [reflexivity | constructor].
Qed.

Lemma skipn_nth_error {A : Type} (l : list A) (n : nat) (x : A) :
  nth_error l n = Some x -> skipn n l = x :: skipn (S n) l.
Proof.
  revert n. induction l as [|a l IH]; intros [|n] H; try discriminate.
  - injection H as ->. reflexivity.
  - simpl in H. apply (IH n H).
Qed.

Lemma pending_next (entry : Q_ENTRY.t) :
  pending (snd (qEntryNext entry)) (fst (qEntryNext entry))
  = skipn (Q_ENTRY.cursor entry) (Q_ENTRY.objs entry).
Proof.
  unfold qEntryNext.
  destruct (nth_error (Q_ENTRY.objs entry) (Q_ENTRY.cursor entry)) as [o|] eqn:E;
    cbn [fst snd pending Q_ENTRY.cursor Q_ENTRY.objs].
  - symmetry. apply skipn_nth_error. exact E.
  - symmetry. apply skipn_all2. apply nth_error_None. exact E.
Qed.

Lemma qEntryNext_state (entry : Q_ENTRY.t) :
  (Q_ENTRY.cursor entry <= length (Q_ENTRY.objs entry))%nat ->
  Q_ENTRY.objs (snd (qEntryNext entry)) = Q_ENTRY.objs entry
  /\ (Q_ENTRY.cursor (snd (qEntryNext entry)) <= length (Q_ENTRY.objs entry))%nat
  /\ with_cursor (snd (qEntryNext entry))
       (match fst (qEntryNext entry) with
        | Some _ => length (Q_ENTRY.objs entry)
        | None => Q_ENTRY.cursor (snd (qEntryNext entry))
        end)
     = with_cursor entry (length (Q_ENTRY.objs entry)).
Proof.
  intros Hc. unfold qEntryNext.
  destruct (nth_error (Q_ENTRY.objs entry) (Q_ENTRY.cursor entry)) as [o|] eqn:E;
    cbn [fst snd Q_ENTRY.cursor Q_ENTRY.objs].
  - assert (Q_ENTRY.cursor entry < length (Q_ENTRY.objs entry))%nat
      by (apply nth_error_Some; congruence).
    repeat split; [lia].
  - apply nth_error_None in E.
    repeat split; [exact Hc |]. f_equal. lia.
Qed.

Lemma memcpy_object (buf : list byte) (dp : Z) (o : Q_NLOBJ.t) :
  size_ok o -> 0 <= dp -> dp + Q_NLOBJ.size o <= zlength buf ->
  memcpy buf dp (Q_NLOBJ.object o) (Q_NLOBJ.size o)
  = Ret (overwrite buf (Z.to_nat dp) (Q_NLOBJ.object o)).
Proof.
  unfold size_ok, memcpy. intros -> Hdp Hfit.
  pose proof (zlength_nonneg (Q_NLOBJ.object o)) as Hn.
  replace (0 <=? dp) with true by lia.
  replace (0 <=? zlength (Q_NLOBJ.object o)) with true by lia.
  replace (dp + zlength (Q_NLOBJ.object o) <=? zlength buf) with true by lia.
  rewrite Z.leb_refl. cbn [andb].
  unfold zlength at 1. rewrite Nat2Z.id, firstn_all. reflexivity.
Qed.

(** The loop copies the pending objects one after the other, starting at
    [dp], and leaves the cursor behind the last object. *)
Lemma finish_loop_copies (entry : Q_ENTRY.t) (obj : option Q_NLOBJ.t)
    (buf : list byte) (dp : Z) :
  Forall size_ok (pending entry obj) ->
  (Q_ENTRY.cursor entry <= length (Q_ENTRY.objs entry))%nat ->
  0 <= dp ->
  dp + zlength (concat (map Q_NLOBJ.object (pending entry obj))) <= zlength buf ->
  finish_loop entry obj buf dp
  = Ret (with_cursor entry
           (match obj with
            | None => Q_ENTRY.cursor entry
            | Some _ => length (Q_ENTRY.objs entry)
            end),
         overwrite buf (Z.to_nat dp)
           (concat (map Q_NLOBJ.object (pending entry obj))),
         dp + zlength (concat (map Q_NLOBJ.object (pending entry obj)))).
Proof.
  funelim (finish_loop entry obj buf dp).
  - intros _ _ Hdp _. cbn [pending map concat]. rewrite overwrite_nil.
    destruct entry. unfold with_cursor, zlength. simpl.
    rewrite Z.add_0_r. reflexivity.
  - intros Hok Hc Hdp Hfit.
    destruct (qEntryNext_state entry Hc) as (Hobjs & Hc' & Hend).
    rewrite pending_next, Hobjs, Hend in H.
    cbn [pending map concat] in Hok, Hfit |- *.
    inversion Hok as [|? ? Ho Hrest]; subst.
    rewrite zlength_app in Hfit |- *.
    pose proof (zlength_nonneg (Q_NLOBJ.object o)) as Hn.
    pose proof (zlength_nonneg
      (concat (map Q_NLOBJ.object
         (skipn (Q_ENTRY.cursor entry) (Q_ENTRY.objs entry))))) as Hm.
    rewrite memcpy_object in Heq by (try assumption; rewrite Ho; lia).
    injection Heq as <-.
    rewrite H; try assumption.
    + rewrite Ho. f_equal. f_equal; [| lia]. f_equal.
      replace (Z.to_nat (dp + zlength (Q_NLOBJ.object o)))
        with (Z.to_nat dp + length (Q_NLOBJ.object o))%nat
        by (unfold zlength; lia).
      apply overwrite_overwrite. unfold zlength in *. lia.
    + rewrite Ho. lia.
    + unfold size_ok, zlength in *. rewrite overwrite_length; lia.
  - intros Hok Hc Hdp Hfit. exfalso.
    cbn [pending map concat] in Hok, Hfit.
    inversion Hok as [|? ? Ho Hrest]; subst.
    rewrite zlength_app in Hfit.
    pose proof (zlength_nonneg
      (concat (map Q_NLOBJ.object
         (skipn (Q_ENTRY.cursor entry) (Q_ENTRY.objs entry))))) as Hm.
    rewrite memcpy_object in Heq; [discriminate | assumption | assumption |].
    rewrite Ho. lia.
Qed.

(** ** Finishing *)

Lemma qObstackFinish_ok (ob : Q_OBSTACK) (junk : indeterminate) :
  obstack_inv ob ->
  let B := concat (chunks (stack ob)) ++ [x00] in
  qObstackFinish (Some ob) (Some junk)
  = Ret (Some B,
         Some (Build_Q_OBSTACK
                 (with_cursor (stack ob) (length (Q_ENTRY.objs (stack ob))))
                 (Some B))).
Proof.
  intros [Hn Hs Ho]. cbv zeta. unfold qObstackFinish, malloc, qEntryFirst.
  fold (with_cursor (stack ob) 0).
  set (e0 := with_cursor (stack ob) 0).
  set (buf := block junk (Z.to_nat (Q_ENTRY.size (stack ob) + 1))).
  set (data := concat (chunks (stack ob))).
  assert (Hdata : zlength data = Q_ENTRY.size (stack ob))
    by (unfold data; rewrite total_bytes_concat; symmetry; exact Hs).
  pose proof (zlength_nonneg data) as Hnn.
  assert (Hbuf : length buf = (length data + 1)%nat).
  { unfold buf. rewrite block_length, <- Hdata. unfold zlength. lia. }
  assert (Hc0 : (Q_ENTRY.cursor e0 <= length (Q_ENTRY.objs e0))%nat)
    by (unfold e0, with_cursor; simpl; lia).
  destruct (qEntryNext_state e0 Hc0) as (Hobjs & Hc' & Hend).
  assert (Hpend : pending (snd (qEntryNext e0)) (fst (qEntryNext e0))
                  = Q_ENTRY.objs (stack ob)) by apply pending_next.
  rewrite finish_loop_copies.
  - rewrite Hpend, Hobjs. fold (chunks (stack ob)). fold data.
    change (Q_ENTRY.objs e0) with (Q_ENTRY.objs (stack ob)) in *.
    cbn [bind]. unfold store.
    rewrite Z.add_0_l.
    replace (0 <=? zlength data) with true by lia.
    replace (zlength data <? zlength (overwrite buf (Z.to_nat 0) data)) with true
      by (unfold zlength; rewrite overwrite_length; simpl; lia).
    cbn [andb bind].
    replace (Z.to_nat (zlength data)) with (0 + length data)%nat
      by (unfold zlength; lia).
    change (Z.to_nat 0) with 0%nat.
    rewrite overwrite_overwrite by (simpl; lia).
    rewrite overwrite_whole by (rewrite length_app; simpl; lia).
    rewrite Hend. reflexivity.
  - rewrite Hpend. exact Ho.
  - rewrite Hobjs. exact Hc'.
  - lia.
  - rewrite Hpend. fold (chunks (stack ob)). fold data.
    unfold zlength. lia.
Qed.

(** What [qObstackFinish] returns is what it leaves in [final]. *)
Lemma qObstackFinish_caches (ob : Q_OBSTACK) (m : option indeterminate)
    (r : option (list byte)) (obstack' : option Q_OBSTACK) :
  qObstackFinish (Some ob) m = Ret (r, obstack') ->
  exists ob', obstack' = Some ob' /\ final ob' = r.
Proof.
  unfold qObstackFinish.
  destruct (malloc (Q_ENTRY.size (stack ob) + 1) m) as [buf|].
  - destruct (finish_loop _ _ buf 0) as [[[entry buf'] dp]|]; cbn [bind];
      [| discriminate].
    destruct (store buf' dp x00) as [buf''|]; cbn [bind]; [| discriminate].
    intros H. injection H as <- <-. eexists. split; reflexivity.
  - intros H. injection H as <- <-. eexists. split; reflexivity.
Qed.

Lemma qObstackGetFinal_cached (ob : Q_OBSTACK) (buf : list byte)
    (m : option indeterminate) :
  final ob = Some buf ->
  qObstackGetFinal (Some ob) m = Ret (Some buf, Some ob).
Proof. intros H. unfold qObstackGetFinal. rewrite H. reflexivity. Qed.

Lemma qObstackGetFinal_fresh (ob : Q_OBSTACK) (m : option indeterminate) :
  final ob = None ->
  qObstackGetFinal (Some ob) m = qObstackFinish (Some ob) m.
Proof.
  intros H. unfold qObstackGetFinal. rewrite H.
  destruct (qObstackFinish (Some ob) m) as [[r obstack']|] eqn:E;
    cbn [bind]; [| reflexivity].
  destruct (qObstackFinish_caches _ _ _ _ E) as (ob' & -> & <-).
  reflexivity.
Qed.

Lemma qObstackGetFinal_caches (ob : Q_OBSTACK) (m : option indeterminate)
    (r : option (list byte)) (obstack' : option Q_OBSTACK) :
  qObstackGetFinal (Some ob) m = Ret (r, obstack') ->
  exists ob', obstack' = Some ob' /\ final ob' = r.
Proof.
  destruct (final ob) as [buf|] eqn:E.
  - rewrite (qObstackGetFinal_cached _ _ _ E). intros H. injection H as <- <-.
    exists ob. split; [reflexivity | exact E].
  - rewrite (qObstackGetFinal_fresh _ _ E). apply qObstackFinish_caches.
Qed.

(** ** The invariant holds in every reachable state *)

Lemma qObstackGrow_false (obstack : option Q_OBSTACK) (object : option (list byte))
    (size : Z) (alloc_ok : bool) (obstack' : option Q_OBSTACK) :
  qObstackGrow obstack object size alloc_ok = Ret (false, obstack') ->
  obstack' = obstack.
Proof.
  unfold qObstackGrow, qEntryPut.
  destruct obstack as [ob|]; [| intros H; injection H as <-; reflexivity].
  destruct object as [bytes|]; [| intros H; injection H as <-; reflexivity].
  destruct (size <=? 0); [intros H; injection H as <-; reflexivity |].
  destruct alloc_ok; cbn [negb bind].
  - destruct ((0 <=? size) && (size <=? zlength bytes)); cbn [bind]; discriminate.
  - intros H. injection H as <-. destruct ob. reflexivity.
Qed.

Lemma with_cursor_inv (entry : Q_ENTRY.t) (c : nat) :
  entry_inv entry -> entry_inv (with_cursor entry c).
Proof. intros [Hn Hs Ho]. split; assumption. Qed.

Lemma qObstackFinish_inv (ob ob' : Q_OBSTACK) (m : option indeterminate)
    (r : option (list byte)) :
  obstack_inv ob ->
  qObstackFinish (Some ob) m = Ret (r, Some ob') ->
  obstack_inv ob'.
Proof.
  intros Hinv. destruct m as [junk|].
  - rewrite (qObstackFinish_ok ob junk Hinv). intros H. injection H as _ <-.
    apply with_cursor_inv. exact Hinv.
  - cbn. intros H. injection H as _ <-. exact Hinv.
Qed.

Theorem reachable_inv (ob : Q_OBSTACK) : reachable ob -> obstack_inv ob.
Proof.
  induction 1 as [a1 a2 ob Hinit | ob ob' object size a r _ IH Hg
                 | ob ob' m r _ IH Hf | ob ob' m r _ IH Hf].
  - unfold qObstackInit, qEntryInit in Hinit.
    destruct a1, a2; try discriminate. injection Hinit as <-.
    split; [reflexivity | reflexivity | constructor].
  - destruct r.
    + apply qObstackGrow_true in Hg.
      destruct Hg as (ob0 & bytes & Hob & _ & _ & _ & Hob').
      injection Hob as <-. injection Hob' as ->. apply pushed_inv. exact IH.
    + apply qObstackGrow_false in Hg. injection Hg as ->. exact IH.
  - exact (qObstackFinish_inv _ _ _ _ IH Hf).
  - destruct (final ob) as [buf|] eqn:E.
    + rewrite (qObstackGetFinal_cached _ _ _ E) in Hf. injection Hf as _ <-.
      exact IH.
    + rewrite (qObstackGetFinal_fresh _ _ E) in Hf.
      exact (qObstackFinish_inv _ _ _ _ IH Hf).
Qed.

(** ** Runs of growth *)


(** * Properties of the operations *)

Lemma ob_sample_inv : obstack_inv ob_sample.
Proof. repeat apply pushed_inv. split; [reflexivity | reflexivity | constructor]. Qed.

(** C1.  On an obstack that holds the chunks [c_1 .. c_n] of total size
    [S], [qObstackFinish] (its allocation succeeding) returns the buffer
    [c_1 ++ ... ++ c_n ++ [0]] of length [S + 1]: the first [S] bytes are
    the chunks in insertion order and the byte at [S] is zero.  With no
    chunk at all the result is the one-byte buffer [[0]], not [NULL]. *)
Theorem qObstackFinish_concatenates (ob : Q_OBSTACK) (junk : indeterminate) :
  obstack_inv ob ->
  let cs := chunks (stack ob) in
  let S := total_bytes cs in
  let B := concat cs ++ [x00] in
  qObstackFinish (Some ob) (Some junk)
  = Ret (Some B,
         Some (Build_Q_OBSTACK
                 (with_cursor (stack ob) (length (Q_ENTRY.objs (stack ob))))
                 (Some B)))
  /\ S = Q_ENTRY.size (stack ob)
  /\ zlength B = S + 1
  /\ firstn (Z.to_nat S) B = concat cs
  /\ nth_error B (Z.to_nat S) = Some x00
  /\ (cs = [] -> B = [x00]).
Proof.
  intros Hinv. cbv zeta.
  assert (Hlen : Z.to_nat (total_bytes (chunks (stack ob)))
                 = length (concat (chunks (stack ob)))).
  { rewrite <- total_bytes_concat. unfold zlength. lia. }
  split; [exact (qObstackFinish_ok ob junk Hinv) |].
  split; [symmetry; exact (inv_size _ Hinv) |].
  split; [| split; [| split]].
  - rewrite zlength_app, total_bytes_concat. reflexivity.
  - rewrite Hlen. apply firstn_exact. reflexivity.
  - rewrite Hlen, nth_error_app2, Nat.sub_diag by lia. reflexivity.
  - intros ->. reflexivity.
Qed.

Lemma qObstackFinish_concatenates_sample :
  obstack_inv ob_sample
  /\ qObstackFinish (Some ob_sample) (Some junk_ff)
     = Ret (Some [x41; x42; x43; x44; x45; x46; x47; x48; x00],
            Some (Build_Q_OBSTACK (with_cursor (stack ob_sample) 3)
                    (Some [x41; x42; x43; x44; x45; x46; x47; x48; x00]))).
Proof.
  split.
  - exact ob_sample_inv.
  - exact (proj1 (qObstackFinish_concatenates ob_sample junk_ff ob_sample_inv)).
Defined.

(** C2.  [qObstackGetFinal] returns the cached final buffer when there
    is one, and otherwise does what [qObstackFinish] does, which caches
    its result.  Hence, once a buffer has been produced, a successful
    [qObstackGrow] followed by [qObstackGetFinal] still yields that
    buffer, computed before the growth. *)
Theorem qObstackGetFinal_cache (ob : Q_OBSTACK) (m : option indeterminate) :
  (forall buf, final ob = Some buf ->
     qObstackGetFinal (Some ob) m = Ret (Some buf, Some ob))
  /\ (final ob = None ->
      qObstackGetFinal (Some ob) m = qObstackFinish (Some ob) m)
  /\ qObstackGetFinal None m = qObstackFinish None m
  /\ (forall r obstack',
        qObstackFinish (Some ob) m = Ret (r, obstack') ->
        exists ob', obstack' = Some ob' /\ final ob' = r)
  /\ (forall buf ob1 object size alloc_ok ob2 m',
        qObstackFinish (Some ob) m = Ret (Some buf, Some ob1)
        \/ qObstackGetFinal (Some ob) m = Ret (Some buf, Some ob1) ->
        qObstackGrow (Some ob1) object size alloc_ok = Ret (true, Some ob2) ->
        qObstackGetFinal (Some ob2) m' = Ret (Some buf, Some ob2)).
Proof.
  split; [intros buf; apply qObstackGetFinal_cached |].
  split; [apply qObstackGetFinal_fresh |].
  split; [reflexivity |].
  split; [apply qObstackFinish_caches |].
  intros buf ob1 object size alloc_ok ob2 m' Hfirst Hgrow.
  assert (Hcache : final ob1 = Some buf).
  { destruct Hfirst as [H | H].
    - apply qObstackFinish_caches in H. destruct H as (ob' & Heq & Hf).
      injection Heq as ->. exact Hf.
    - apply qObstackGetFinal_caches in H. destruct H as (ob' & Heq & Hf).
      injection Heq as ->. exact Hf. }
  apply qObstackGrow_true in Hgrow.
  destruct Hgrow as (ob0 & bytes & Hob & _ & _ & _ & Hob2).
  injection Hob as <-. injection Hob2 as ->.
  apply qObstackGetFinal_cached. exact Hcache.
Qed.

Lemma qObstackGetFinal_cache_stale :
  qObstackFinish (Some ob_AB) (Some junk_ff)
  = Ret (Some [x41; x42; x00], Some ob_AB_finished)
  /\ qObstackGrow (Some ob_AB_finished) (Some raw_FGH) 3 true
     = Ret (true, Some (pushed ob_AB_finished raw_FGH))
  /\ qObstackGetFinal (Some (pushed ob_AB_finished raw_FGH)) (Some junk_ff)
     = Ret (Some [x41; x42; x00], Some (pushed ob_AB_finished raw_FGH)).
Proof.
  assert (H1 : qObstackFinish (Some ob_AB) (Some junk_ff)
               = Ret (Some [x41; x42; x00], Some ob_AB_finished))
    by reflexivity.
  assert (H2 : qObstackGrow (Some ob_AB_finished) (Some raw_FGH) 3 true
               = Ret (true, Some (pushed ob_AB_finished raw_FGH)))
    by reflexivity.
  split; [exact H1 |]. split; [exact H2 |].
  exact (proj2 (proj2 (proj2 (proj2
           (qObstackGetFinal_cache ob_AB (Some junk_ff)))))
           _ _ _ _ _ _ (Some junk_ff) (or_introl H1) H2).
Defined.

(** C3, as amended.  When the allocation inside [qObstackFinish] fails,
    the call returns [NULL] and the entry list (chunks, counters and
    cursor) is as before, but the final buffer cached so far has been
    released: [final] is null afterwards. *)
Theorem qObstackFinish_alloc_failure (ob : Q_OBSTACK) :
  qObstackFinish (Some ob) None
  = Ret (None, Some (Build_Q_OBSTACK (stack ob) None)).
Proof. reflexivity. Qed.

(** C3, as stated, fails on an obstack that has a cached final buffer:
    the failed call does not hand the obstack back unchanged, the cached
    "AB" is gone. *)
Lemma qObstackFinish_alloc_failure_drops_final :
  reachable ob_AB_finished
  /\ final ob_AB_finished = Some [x41; x42; x00]
  /\ qObstackFinish (Some ob_AB_finished) None
     = Ret (None, Some (Build_Q_OBSTACK (stack ob_AB_finished) None))
  /\ qObstackFinish (Some ob_AB_finished) None
     <> Ret (None, Some ob_AB_finished).
Proof.
  split; [| split; [reflexivity | split; [reflexivity | discriminate]]].
  apply (reach_finish ob_AB ob_AB_finished (Some junk_ff) (Some [x41; x42; x00])).
  - apply (reach_grow ob_fresh ob_AB (Some str_AB) 2 true true).
    + apply (reach_init true true). reflexivity.
    + reflexivity.
  - reflexivity.
Qed.

(** C7.  When [qObstackGetFinal] has returned a buffer, calling it again
    with nothing in between returns the same bytes (the cached buffer
    itself), whatever the allocator would do. *)
Theorem qObstackGetFinal_twice (obstack obstack1 : option Q_OBSTACK)
    (m1 m2 : option indeterminate) (buf : list byte) :
  qObstackGetFinal obstack m1 = Ret (Some buf, obstack1) ->
  qObstackGetFinal obstack1 m2 = Ret (Some buf, obstack1).
Proof.
  destruct obstack as [ob|]; [| discriminate].
  intros H. apply qObstackGetFinal_caches in H.
  destruct H as (ob' & -> & Hf).
  apply qObstackGetFinal_cached. exact Hf.
Qed.

Lemma qObstackGetFinal_twice_sample :
  qObstackGetFinal (Some ob_AB) (Some junk_ff)
  = Ret (Some [x41; x42; x00], Some ob_AB_finished)
  /\ qObstackGetFinal (Some ob_AB_finished) None
     = Ret (Some [x41; x42; x00], Some ob_AB_finished).
Proof.
  assert (H1 : qObstackGetFinal (Some ob_AB) (Some junk_ff)
               = Ret (Some [x41; x42; x00], Some ob_AB_finished))
    by reflexivity.
  split; [exact H1 |].
  exact (qObstackGetFinal_twice _ _ (Some junk_ff) None _ H1).
Defined.

(** C8.  On a null handle [qObstackFree] and [qObstackGrow] return
    [false] and [qObstackFinish] returns [NULL]; each is defined and
    there is no object it could have touched. *)
Theorem null_handle_failure (object : option (list byte)) (size : Z)
    (alloc_ok : bool) (m : option indeterminate) :
  qObstackFree None = (false, None)
  /\ qObstackGrow None object size alloc_ok = Ret (false, None)
  /\ qObstackFinish None m = Ret (None, None).
Proof. repeat split. Qed.

(** The range of [int]. *)
Lemma int_cast_small (z : Z) : - INT_MAX - 1 <= z <= INT_MAX -> int_cast z = z.
Proof.
  unfold int_cast, INT_MAX. intros H. rewrite Z.mod_small by lia. lia.
Qed.


(** C4.  [qObstackGrow] with a null obstack, a null object or a size
    that is not positive returns [false] and leaves the obstack exactly
    as it was.  A call with a live obstack, an object that holds [size]
    bytes, a positive size and storage for the chunk returns [true].
    Every call that returns [true] had all three arguments in order and
    has raised the total size kept by the obstack by exactly [size] and
    its number of chunks by exactly one, the final buffer staying as it
    was; [qObstackGetSize] and [qObstackGetNum] show these increments as
    long as the totals fit an [int]. *)
Theorem qObstackGrow_precondition (obstack : option Q_OBSTACK)
    (object : option (list byte)) (size : Z) (alloc_ok : bool) :
  (obstack = None \/ object = None \/ size <= 0 ->
   qObstackGrow obstack object size alloc_ok = Ret (false, obstack))
  /\ (forall ob bytes,
        obstack = Some ob -> object = Some bytes ->
        0 < size <= zlength bytes -> alloc_ok = true ->
        qObstackGrow obstack object size alloc_ok
        = Ret (true, Some (pushed ob (firstn (Z.to_nat size) bytes))))
  /\ (forall obstack',
        qObstackGrow obstack object size alloc_ok = Ret (true, obstack') ->
        obstack <> None /\ object <> None /\ 0 < size /\ obstack' <> None)
  /\ (forall ob ob',
        obstack = Some ob ->
        qObstackGrow obstack object size alloc_ok = Ret (true, Some ob') ->
        Q_ENTRY.size (stack ob') = Q_ENTRY.size (stack ob) + size
        /\ Q_ENTRY.num (stack ob') = Q_ENTRY.num (stack ob) + 1
        /\ final ob' = final ob
        /\ (0 <= Q_ENTRY.size (stack ob) ->
            Q_ENTRY.size (stack ob') <= INT_MAX ->
            qObstackGetSize (Some ob') = qObstackGetSize (Some ob) + size)
        /\ (0 <= Q_ENTRY.num (stack ob) ->
            Q_ENTRY.num (stack ob') <= INT_MAX ->
            qObstackGetNum (Some ob') = qObstackGetNum (Some ob) + 1)).
Proof.
  split; [| split; [| split]].
  - intros [-> | [-> | Hs]].
    + reflexivity.
    + destruct obstack; reflexivity.
    + apply qObstackGrow_zero. exact Hs.
  - intros ob bytes -> -> Hs ->. apply qObstackGrow_pushed. exact Hs.
  - intros obstack' H. apply qObstackGrow_true in H.
    destruct H as (ob & bytes & -> & -> & _ & Hs & ->).
    repeat split; try discriminate. lia.
  - intros ob ob' -> H. apply qObstackGrow_true in H.
    destruct H as (ob0 & bytes & Hob & -> & _ & Hs & Hob').
    injection Hob as <-. injection Hob' as ->.
    assert (Hsize : Q_ENTRY.size (stack (pushed ob (firstn (Z.to_nat size) bytes)))
                    = Q_ENTRY.size (stack ob) + size)
      by (cbn; rewrite zlength_firstn by lia; reflexivity).
    assert (Hnum : Q_ENTRY.num (stack (pushed ob (firstn (Z.to_nat size) bytes)))
                   = Q_ENTRY.num (stack ob) + 1) by reflexivity.
    split; [exact Hsize | split; [exact Hnum | split; [reflexivity |]]].
    cbn [qObstackGetSize qObstackGetNum]. rewrite Hsize, Hnum.
    unfold INT_MAX. split; intros H0 H1;
      rewrite !int_cast_small by (unfold INT_MAX; lia); reflexivity.
Qed.

Lemma qObstackGrow_precondition_sample :
  qObstackGrow (Some ob_AB_finished) (Some raw_FGH) 0 true
  = Ret (false, Some ob_AB_finished)
  /\ qObstackGrow (Some ob_AB_finished) (Some raw_FGH) 3 true
     = Ret (true, Some (pushed ob_AB_finished raw_FGH))
  /\ qObstackGetSize (Some (pushed ob_AB_finished raw_FGH))
     = qObstackGetSize (Some ob_AB_finished) + 3
  /\ qObstackGetNum (Some (pushed ob_AB_finished raw_FGH))
     = qObstackGetNum (Some ob_AB_finished) + 1.
Proof.
  assert (Hgrow : qObstackGrow (Some ob_AB_finished) (Some raw_FGH) 3 true
                  = Ret (true, Some (pushed ob_AB_finished raw_FGH))).
  { apply (proj1 (proj2 (qObstackGrow_precondition
                           (Some ob_AB_finished) (Some raw_FGH) 3 true))
             ob_AB_finished raw_FGH eq_refl eq_refl).
    - split; [reflexivity | discriminate].
    - reflexivity. }
  split; [| split; [exact Hgrow |]].
  - apply (proj1 (qObstackGrow_precondition
                    (Some ob_AB_finished) (Some raw_FGH) 0 true)).
    right. right. apply Z.le_refl.
  - destruct (proj2 (proj2 (proj2 (qObstackGrow_precondition
                (Some ob_AB_finished) (Some raw_FGH) 3 true)))
                ob_AB_finished (pushed ob_AB_finished raw_FGH) eq_refl Hgrow)
      as (_ & _ & _ & Hs & Hn).
    split; [apply Hs | apply Hn]; discriminate.
Defined.






(** C9.  [qObstackGrowStr] takes [strlen] of its text before anything is
    checked: with a null text the call is undefined, not the [false]
    that [qObstackGrow] returns for a null object.  Whenever the call
    is defined the text is a non-null, terminated buffer, and the
    object handed to [qObstackGrow] is that buffer. *)
Theorem qObstackGrowStr_null_text (obstack : option Q_OBSTACK) (alloc_ok : bool) :
  qObstackGrowStr obstack None alloc_ok = Undefined
  /\ (forall size, qObstackGrow obstack None size alloc_ok = Ret (false, obstack))
  /\ (forall str r,
        qObstackGrowStr obstack str alloc_ok = Ret r ->
        exists s, str = Some s /\ In x00 s
                  /\ qObstackGrow obstack (Some s) (zlength (c_text s)) alloc_ok
                     = Ret r).
Proof.
  split; [reflexivity |].
  split; [intros size; destruct obstack; reflexivity |].
  intros [s|] r; [| discriminate].
  unfold qObstackGrowStr, strlen.
  destruct (strlen_from s) as [n|] eqn:E; cbn [bind]; [| discriminate].
  destruct (strlen_from_defined s n E) as [Hin ->].
  intros H. exists s. repeat split; assumption.
Qed.

Lemma qObstackGrowStr_null_text_sample :
  exists s, Some str_AB = Some s /\ In x00 s
            /\ qObstackGrow (Some ob_fresh) (Some s) (zlength (c_text s)) true
               = Ret (true, Some ob_AB).
Proof.
  apply (proj2 (proj2 (qObstackGrowStr_null_text (Some ob_fresh) true))
           (Some str_AB) (true, Some ob_AB)).
  reflexivity.
Defined.

(** C6, as amended.  On a live obstack [qObstackGrowStrf] renders into
    a scratch buffer of 1024 bytes, which then holds a terminated text
    of at most 1023 bytes, and hands that text (the bytes of the output
    before its first zero byte, 1023 at most) to [qObstackGrow].  When
    the output is longer than 1023 bytes and has no zero byte among its
    first 1023, the call returns [true] (storage permitting) and the
    new chunk is the truncated output, its first 1023 bytes. *)
Theorem qObstackGrowStrf_bounded {format va_list : Type}
    (render : format -> va_list -> list byte) (ob : Q_OBSTACK) (fmt : format)
    (arglist : va_list) (junk : indeterminate) (alloc_ok : bool) :
  let out := render fmt arglist in
  let str := vsnprintf (block junk 1024) 1024 out in
  length str = 1024%nat
  /\ In x00 str
  /\ zlength (c_text str) <= 1023
  /\ c_text str = c_text (firstn 1023 out)
  /\ qObstackGrowStrf render (Some ob) fmt arglist junk alloc_ok
     = qObstackGrow (Some ob) (Some (c_text str)) (zlength (c_text str)) alloc_ok
  /\ (~ In x00 (firstn 1023 out) -> c_text str = firstn 1023 out)
  /\ (~ In x00 (firstn 1023 out) -> (1023 < length out)%nat ->
      alloc_ok = true ->
      qObstackGrowStrf render (Some ob) fmt arglist junk alloc_ok
      = Ret (true, Some (pushed ob (firstn 1023 out)))).
Proof.
  cbv zeta.
  destruct (vsnprintf_scratch junk (render fmt arglist)) as (Hlen & Hin & Htext).
  cbv zeta in Hlen, Hin, Htext.
  split; [exact Hlen |]. split; [exact Hin |].
  rewrite Htext. split; [| split; [reflexivity | split; [| split]]].
  - pose proof (c_text_length (firstn 1023 (render fmt arglist))) as H.
    rewrite length_firstn in H. unfold zlength. lia.
  - apply qObstackGrowStrf_text.
  - apply c_text_zero_free.
  - intros Hz Hlong ->. rewrite qObstackGrowStrf_text. cbv zeta.
    rewrite (c_text_zero_free _ Hz).
    assert (Hn : length (firstn 1023 (render fmt arglist)) = 1023%nat)
      by (rewrite length_firstn; lia).
    rewrite qObstackGrow_pushed by (unfold zlength; lia).
    unfold zlength. rewrite Nat2Z.id, firstn_all. reflexivity.
Qed.

Lemma long_text_zero_free : ~ In x00 long_text.
Proof. intros H. apply repeat_spec in H. discriminate H. Qed.

Lemma qObstackGrowStrf_bounded_sample :
  qObstackGrowStrf render_verbatim (Some ob_fresh) long_text tt junk_ff true
  = Ret (true, Some (pushed ob_fresh (firstn 1023 long_text))).
Proof.
  apply (proj2 (proj2 (proj2 (proj2 (proj2 (proj2
           (qObstackGrowStrf_bounded render_verbatim ob_fresh long_text tt
              junk_ff true))))))).
  - intros H. apply long_text_zero_free.
    rewrite <- (firstn_skipn 1023 long_text). apply in_or_app. left. exact H.
  - apply Nat.ltb_lt. reflexivity.
  - reflexivity.
Defined.

(** C6, as stated, fails on an output that begins with a zero byte: it
    has 1031 bytes, more than the buffer holds, yet the call returns
    [false] and appends nothing.  With the zero byte in second place
    the chunk is the single byte before it, not the truncated output. *)
Lemma qObstackGrowStrf_zero_byte :
  (1023 < length (x00 :: long_text))%nat
  /\ qObstackGrowStrf render_verbatim (Some ob_fresh) (x00 :: long_text) tt
       junk_ff true
     = Ret (false, Some ob_fresh)
  /\ qObstackGrowStrf render_verbatim (Some ob_fresh) (x61 :: x00 :: long_text)
       tt junk_ff true
     = Ret (true, Some (pushed ob_fresh [x61]))
  /\ firstn 1023 (x61 :: x00 :: long_text) <> [x61].
Proof.
  split; [apply Nat.ltb_lt; reflexivity |].
  split; [vm_compute; reflexivity |].
  split; [vm_compute; reflexivity | discriminate].
Qed.

(** C10.  The string forms put exactly the text before the first zero
    byte on the obstack.  So [qObstackGrowStr] on the empty string, and
    [qObstackGrowStrf] with an output that is empty or begins with a
    zero byte, reach [qObstackGrow] with size 0: they return [false]
    and the obstack (total size, number of chunks, cached final buffer)
    is exactly as before. *)
Theorem string_growth_text {format va_list : Type}
    (render : format -> va_list -> list byte) (obstack : option Q_OBSTACK)
    (ob : Q_OBSTACK) (s : list byte) (fmt : format) (arglist : va_list)
    (junk : indeterminate) (alloc_ok : bool) :
  let text := c_text (firstn 1023 (render fmt arglist)) in
  (In x00 s ->
   qObstackGrowStr obstack (Some s) alloc_ok
   = qObstackGrow obstack (Some (c_text s)) (zlength (c_text s)) alloc_ok)
  /\ (In x00 s -> c_text s <> [] ->
      qObstackGrowStr (Some ob) (Some s) true
      = Ret (true, Some (pushed ob (c_text s))))
  /\ qObstackGrowStrf render (Some ob) fmt arglist junk alloc_ok
     = qObstackGrow (Some ob) (Some text) (zlength text) alloc_ok
  /\ (text <> [] ->
      qObstackGrowStrf render (Some ob) fmt arglist junk true
      = Ret (true, Some (pushed ob text)))
  /\ (forall rest,
        qObstackGrowStr obstack (Some (x00 :: rest)) alloc_ok
        = Ret (false, obstack))
  /\ (render fmt arglist = [] \/ (exists rest, render fmt arglist = x00 :: rest) ->
      qObstackGrowStrf render obstack fmt arglist junk alloc_ok
      = Ret (false, obstack)).
Proof.
  cbv zeta.
  assert (Hpush : forall t : list byte, t <> [] ->
            qObstackGrow (Some ob) (Some t) (zlength t) true
            = Ret (true, Some (pushed ob t))).
  { intros t Ht. rewrite qObstackGrow_pushed.
    - unfold zlength. rewrite Nat2Z.id, firstn_all. reflexivity.
    - unfold zlength. destruct t; [contradiction | simpl length; lia]. }
  split; [apply qObstackGrowStr_text |].
  split; [intros Hin Ht; rewrite qObstackGrowStr_text by exact Hin;
          apply Hpush; exact Ht |].
  split; [apply qObstackGrowStrf_text |].
  split; [intros Ht; rewrite qObstackGrowStrf_text; apply Hpush; exact Ht |].
  split.
  - intros rest. unfold qObstackGrowStr. cbn [strlen strlen_from Byte.eqb bind].
    change (Byte.eqb x00 x00) with true. cbn [bind].
    apply qObstackGrow_zero. apply Z.le_refl.
  - intros Hout. destruct obstack as [ob0|]; [| reflexivity].
    rewrite qObstackGrowStrf_text. cbv zeta.
    rewrite c_text_firstn_empty by (apply c_text_empty; exact Hout).
    apply qObstackGrow_zero. apply Z.le_refl.
Qed.

Lemma string_growth_text_sample :
  qObstackGrowStr (Some ob_fresh) (Some str_AB) true = Ret (true, Some ob_AB)
  /\ qObstackGrowStrf render_verbatim (Some ob_AB) str_CDE tt junk_ff true
     = Ret (true, Some (pushed ob_AB str_CDE))
  /\ qObstackGrowStrf render_verbatim (Some ob_AB_finished) [] tt junk_ff true
     = Ret (false, Some ob_AB_finished).
Proof.
  destruct (string_growth_text render_verbatim (Some ob_fresh) ob_fresh str_AB
              [] tt junk_ff true) as (_ & Hstr & _).
  destruct (string_growth_text render_verbatim (Some ob_AB_finished) ob_AB
              str_AB str_CDE tt junk_ff true) as (_ & _ & _ & Hfmt & _).
  destruct (string_growth_text render_verbatim (Some ob_AB_finished) ob_AB
              str_AB [] tt junk_ff true) as (_ & _ & _ & _ & _ & Hempty).
  split; [| split].
  - apply Hstr; [right; right; left; reflexivity | discriminate].
  - apply Hfmt. discriminate.
  - apply Hempty. left. reflexivity.
Defined.

(** * Further properties of the obstack *)

Lemma to_nat_zlength {A : Type} (l : list A) : Z.to_nat (zlength l) = length l.
Proof. unfold zlength. apply Nat2Z.id. Qed.

Lemma ob_AB_finished_reachable : reachable ob_AB_finished.
Proof.
  apply (reach_finish ob_AB ob_AB_finished (Some junk_ff) (Some [x41; x42; x00])).
  - apply (reach_grow ob_fresh ob_AB (Some str_AB) 2 true true).
    + apply (reach_init true true). reflexivity.
    + reflexivity.
  - reflexivity.
Qed.



Lemma cached_since_reachable (ob : Q_OBSTACK) (k : option nat) :
  cached_since ob k -> reachable ob.
Proof.
  induction 1 as [a1 a2 ob Hinit | ob ob' object size a r k _ IH Hg
                 | ob ob' m r k _ IH Hf | ob ob' m r k _ IH Hf].
  - exact (reach_init _ _ _ Hinit).
  - exact (reach_grow _ _ _ _ _ _ IH Hg).
  - exact (reach_finish _ _ _ _ IH Hf).
  - exact (reach_getfinal _ _ _ _ IH Hf).
Qed.

(** What a finish leaves in the cache, told by the pointer it returns. *)
Lemma qObstackFinish_cache (ob ob' : Q_OBSTACK) (m : option indeterminate)
    (r : option (list byte)) :
  obstack_inv ob ->
  qObstackFinish (Some ob) m = Ret (r, Some ob') ->
  chunks (stack ob') = chunks (stack ob)
  /\ final ob' = r
  /\ r = match m with
         | Some _ => Some (concat (chunks (stack ob)) ++ [x00])
         | None => None
         end.
Proof.
  intros Hinv H. destruct m as [junk|].
  - rewrite (qObstackFinish_ok ob junk Hinv) in H. injection H as <- <-.
    repeat split.
  - cbn in H. injection H as <- <-. repeat split.
Qed.

(** X2.  The cached final buffer is exactly what the last successful
    finish produced: in a state whose latest computation of a final
    buffer was made with [n] chunks on the obstack, [final] holds the
    first [n] of the current chunks followed by the terminator (later
    growth only added chunks behind them); in a state where no buffer
    was computed, or [qObstackFinish] has failed since, [final] is
    null. *)
Theorem final_is_last_finish (ob : Q_OBSTACK) (k : option nat) :
  cached_since ob k ->
  final ob = match k with
             | Some n => Some (concat (firstn n (chunks (stack ob))) ++ [x00])
             | None => None
             end
  /\ (forall n, k = Some n -> (n <= length (chunks (stack ob)))%nat).
Proof.
  assert (Hfin : forall ob0 ob' m r, reachable ob0 ->
            qObstackFinish (Some ob0) m = Ret (r, Some ob') ->
            final ob'
            = match match r with
                    | Some _ => Some (length (chunks (stack ob0)))
                    | None => None
                    end with
              | Some n => Some (concat (firstn n (chunks (stack ob'))) ++ [x00])
              | None => None
              end
            /\ (forall n, match r with
                          | Some _ => Some (length (chunks (stack ob0)))
                          | None => None
                          end = Some n ->
                          (n <= length (chunks (stack ob')))%nat)).
  { intros ob0 ob' m r Hr0 Hf.
    destruct (qObstackFinish_cache _ _ _ _ (reachable_inv _ Hr0) Hf)
      as (Hc & Hfinal & Hr).
    rewrite Hr in Hfinal |- *. rewrite Hfinal, Hc. clear Hr Hfinal.
    destruct m as [junk|]; cbv beta iota.
    - rewrite firstn_all. split; [reflexivity |].
      intros n Hn. injection Hn as <-. reflexivity.
    - split; [reflexivity | discriminate]. }
  induction 1 as [a1 a2 ob Hinit | ob ob' object size a r k Hk IH Hg
                 | ob ob' m r k Hk IH Hf | ob ob' m r k Hk IH Hf].
  - unfold qObstackInit, qEntryInit in Hinit.
    destruct a1, a2; try discriminate. injection Hinit as <-.
    split; [reflexivity | discriminate].
  - destruct IH as [IHf IHn]. destruct r.
    + apply qObstackGrow_true in Hg.
      destruct Hg as (ob0 & bytes & Hob & _ & _ & _ & Hob').
      injection Hob as <-. injection Hob' as ->.
      assert (Hch : chunks (stack (pushed ob (firstn (Z.to_nat size) bytes)))
                    = chunks (stack ob) ++ [firstn (Z.to_nat size) bytes]).
      { unfold pushed, chunks. cbn [stack Q_ENTRY.objs].
        rewrite map_app. reflexivity. }
      rewrite Hch. change (final (pushed ob _)) with (final ob).
      destruct k as [n|].
      * specialize (IHn n eq_refl). rewrite IHf, firstn_app.
        replace (n - length (chunks (stack ob)))%nat with 0%nat by lia.
        cbn [firstn]. rewrite app_nil_r. split; [reflexivity |].
        intros n' Hn'. injection Hn' as <-. rewrite length_app. lia.
      * split; [exact IHf | discriminate].
    + apply qObstackGrow_false in Hg. injection Hg as ->. split; assumption.
  - exact (Hfin _ _ _ _ (cached_since_reachable _ _ Hk) Hf).
  - destruct (final ob) as [b|] eqn:E.
    + rewrite (qObstackGetFinal_cached _ _ _ E) in Hf. injection Hf as _ <-.
      rewrite E. exact IH.
    + rewrite (qObstackGetFinal_fresh _ _ E) in Hf.
      exact (Hfin _ _ _ _ (cached_since_reachable _ _ Hk) Hf).
Qed.

Lemma pushed_stale_reachable : reachable (pushed ob_AB_finished raw_FGH).
Proof.
  apply (reach_grow ob_AB_finished _ (Some raw_FGH) 3 true true).
  - exact ob_AB_finished_reachable.
  - reflexivity.
Qed.

Lemma pushed_stale_since : cached_since (pushed ob_AB_finished raw_FGH) (Some 1%nat).
Proof.
  apply (since_grow ob_AB_finished _ (Some raw_FGH) 3 true true).
  - apply (since_finish ob_AB ob_AB_finished (Some junk_ff)
             (Some [x41; x42; x00]) None).
    + apply (since_grow ob_fresh ob_AB (Some str_AB) 2 true true None).
      * apply (since_init true true). reflexivity.
      * reflexivity.
    + reflexivity.
  - reflexivity.
Qed.

Lemma final_is_last_finish_sample :
  final (pushed ob_AB_finished raw_FGH) = Some [x41; x42; x00]
  /\ chunks (stack (pushed ob_AB_finished raw_FGH)) = [[x41; x42]; raw_FGH].
Proof.
  split; [| reflexivity].
  exact (proj1 (final_is_last_finish (pushed ob_AB_finished raw_FGH)
                  (Some 1%nat) pushed_stale_since)).
Defined.

(** X3.  [qObstackFinish] after a successful [qObstackGrow] returns the
    old chunks followed by the new one and the terminator, whether or
    not an older final buffer was cached. *)
Theorem qObstackFinish_after_grow (ob : Q_OBSTACK) (bytes : list byte)
    (size : Z) (junk : indeterminate) :
  obstack_inv ob ->
  0 < size <= zlength bytes ->
  exists ob1 ob2,
    qObstackGrow (Some ob) (Some bytes) size true = Ret (true, Some ob1)
    /\ qObstackFinish (Some ob1) (Some junk)
       = Ret (Some (concat (chunks (stack ob))
                      ++ firstn (Z.to_nat size) bytes ++ [x00]),
              Some ob2).
Proof.
  intros Hinv Hs.
  exists (pushed ob (firstn (Z.to_nat size) bytes)). eexists.
  split; [apply qObstackGrow_pushed; exact Hs |].
  rewrite (qObstackFinish_ok _ junk (pushed_inv _ _ Hinv)). cbv zeta.
  unfold pushed at 1 3, chunks at 1 3. cbn [stack Q_ENTRY.objs].
  rewrite map_app, concat_app. cbn [map concat Q_NLOBJ.object].
  rewrite app_nil_r, <- app_assoc. reflexivity.
Qed.

Lemma qObstackFinish_after_grow_sample :
  exists ob1 ob2,
    qObstackGrow (Some ob_AB_finished) (Some raw_FGH) 3 true = Ret (true, Some ob1)
    /\ qObstackFinish (Some ob1) (Some junk_ff)
       = Ret (Some [x41; x42; x46; x47; x48; x00], Some ob2).
Proof.
  apply (qObstackFinish_after_grow ob_AB_finished raw_FGH 3 junk_ff).
  - apply reachable_inv. exact ob_AB_finished_reachable.
  - split; [reflexivity | discriminate].
Defined.

Lemma concat_fixed_nth (k : nat) (cs : list (list byte)) (tail : list byte)
    (i : nat) (c : list byte) :
  Forall (fun c => length c = k) cs ->
  nth_error cs i = Some c ->
  firstn k (skipn (i * k) (concat cs ++ tail)) = c.
Proof.
  revert i. induction cs as [|d cs IH]; intros [|i] Hall Hnth;
    try discriminate; inversion Hall as [|? ? Hd Hrest]; subst.
  - injection Hnth as ->. cbn [concat Nat.mul skipn].
    rewrite <- app_assoc. apply firstn_exact. reflexivity.
  - cbn [concat nth_error] in *. rewrite <- app_assoc.
    replace (S i * length d)%nat with (i * length d + length d)%nat by lia.
    rewrite <- skipn_skipn, (skipn_exact d _ _ eq_refl).
    apply IH; assumption.
Qed.

(** X4.  Object mode: when every chunk on the obstack has the same
    length [k], the buffer [qObstackFinish] returns is an array of
    records, and its [i]-th slot of [k] bytes is the [i]-th chunk that
    was grown. *)
Theorem qObstackFinish_records (ob : Q_OBSTACK) (junk : indeterminate)
    (k i : nat) (c : list byte) :
  obstack_inv ob ->
  Forall (fun c => length c = k) (chunks (stack ob)) ->
  nth_error (chunks (stack ob)) i = Some c ->
  exists B ob',
    qObstackFinish (Some ob) (Some junk) = Ret (Some B, Some ob')
    /\ firstn k (skipn (i * k) B) = c.
Proof.
  intros Hinv Hall Hnth. do 2 eexists.
  split; [exact (qObstackFinish_ok ob junk Hinv) |].
  apply concat_fixed_nth; assumption.
Qed.

Lemma qObstackFinish_records_sample :
  exists B ob',
    qObstackFinish (Some (pushed (pushed ob_fresh str_CDE) raw_FGH)) (Some junk_ff)
    = Ret (Some B, Some ob')
    /\ firstn 3 (skipn (1 * 3) B) = raw_FGH.
Proof.
  apply (qObstackFinish_records (pushed (pushed ob_fresh str_CDE) raw_FGH)
           junk_ff 3 1 raw_FGH).
  - repeat apply pushed_inv. split; [reflexivity | reflexivity | constructor].
  - repeat constructor.
  - reflexivity.
Defined.

(** X5.  String mode: when no chunk holds a zero byte, the buffer
    [qObstackFinish] returns is a C string whose text is the
    concatenation of the chunks; its [strlen] is the number of bytes in
    the chunks, which is [qObstackGetSize] as long as that number is at
    most [INT_MAX]. *)
Theorem qObstackFinish_c_string (ob : Q_OBSTACK) (junk : indeterminate) :
  obstack_inv ob ->
  Forall (fun c => ~ In x00 c) (chunks (stack ob)) ->
  exists B ob',
    qObstackFinish (Some ob) (Some junk) = Ret (Some B, Some ob')
    /\ c_text B = concat (chunks (stack ob))
    /\ strlen (Some B) = Ret (zlength (concat (chunks (stack ob))))
    /\ (zlength (concat (chunks (stack ob))) <= INT_MAX ->
        strlen (Some B) = Ret (qObstackGetSize (Some ob))).
Proof.
  intros Hinv Hfree.
  assert (Hz : ~ In x00 (concat (chunks (stack ob)))).
  { intros Hin. apply in_concat in Hin. destruct Hin as (c & Hc & Hin).
    rewrite Forall_forall in Hfree. exact (Hfree c Hc Hin). }
  assert (Ht : c_text (concat (chunks (stack ob)) ++ [x00])
               = concat (chunks (stack ob)))
    by (rewrite c_text_terminated; apply c_text_zero_free; exact Hz).
  assert (Hlen : strlen (Some (concat (chunks (stack ob)) ++ [x00]))
                 = Ret (zlength (concat (chunks (stack ob))))).
  { cbn [strlen]. rewrite strlen_from_text, Ht; [reflexivity |].
    apply in_or_app. right. left. reflexivity. }
  do 2 eexists. split; [exact (qObstackFinish_ok ob junk Hinv) |].
  split; [exact Ht | split; [exact Hlen |]].
  intros Hint. rewrite Hlen. cbn [qObstackGetSize].
  rewrite (inv_size _ Hinv), <- total_bytes_concat, int_cast_small; [reflexivity |].
  pose proof (zlength_nonneg (concat (chunks (stack ob)))).
  unfold INT_MAX in *. lia.
Qed.

Lemma qObstackFinish_c_string_sample :
  exists B ob',
    qObstackFinish (Some ob_sample) (Some junk_ff) = Ret (Some B, Some ob')
    /\ c_text B = [x41; x42; x43; x44; x45; x46; x47; x48]
    /\ strlen (Some B) = Ret 8
    /\ (8 <= INT_MAX -> strlen (Some B) = Ret (qObstackGetSize (Some ob_sample))).
Proof.
  apply (qObstackFinish_c_string ob_sample junk_ff).
  - exact ob_sample_inv.
  - repeat constructor; intros H; repeat (destruct H as [H | H]; [discriminate H |]);
      exact H.
Defined.

(** X6.  [qObstackFinish] can be repeated: a second call right after a
    successful one returns the same bytes and leaves the same obstack,
    and neither call changes the size, the number of chunks or the
    chunks. *)
Theorem qObstackFinish_repeat (ob ob1 : Q_OBSTACK) (j1 j2 : indeterminate)
    (B : list byte) :
  obstack_inv ob ->
  qObstackFinish (Some ob) (Some j1) = Ret (Some B, Some ob1) ->
  qObstackFinish (Some ob1) (Some j2) = Ret (Some B, Some ob1)
  /\ chunks (stack ob1) = chunks (stack ob)
  /\ qObstackGetSize (Some ob1) = qObstackGetSize (Some ob)
  /\ qObstackGetNum (Some ob1) = qObstackGetNum (Some ob).
Proof.
  intros Hinv H1. rewrite (qObstackFinish_ok ob j1 Hinv) in H1.
  injection H1 as <- <-.
  split; [| repeat split].
  exact (qObstackFinish_ok
           (Build_Q_OBSTACK
              (with_cursor (stack ob) (length (Q_ENTRY.objs (stack ob))))
              (Some (concat (chunks (stack ob)) ++ [x00])))
           j2 (with_cursor_inv _ _ Hinv)).
Qed.

Lemma qObstackFinish_repeat_sample :
  qObstackFinish (Some ob_AB_finished) (Some junk_ff)
  = Ret (Some [x41; x42; x00], Some ob_AB_finished).
Proof.
  apply (qObstackFinish_repeat ob_AB ob_AB_finished junk_ff junk_ff).
  - apply pushed_inv. split; [reflexivity | reflexivity | constructor].
  - reflexivity.
Defined.

(** X7.  After a [qObstackFinish] whose allocation failed the cache is
    empty, so the next [qObstackGetFinal] computes the buffer afresh
    from all the chunks, also where a stale buffer was cached before
    the failure. *)
Theorem qObstackGetFinal_after_failure (ob : Q_OBSTACK) (junk : indeterminate) :
  obstack_inv ob ->
  exists ob1 ob2,
    qObstackFinish (Some ob) None = Ret (None, Some ob1)
    /\ qObstackGetFinal (Some ob1) (Some junk)
       = Ret (Some (concat (chunks (stack ob)) ++ [x00]), Some ob2).
Proof.
  intros Hinv. do 2 eexists. split; [reflexivity |].
  rewrite qObstackGetFinal_fresh by reflexivity.
  exact (qObstackFinish_ok (Build_Q_OBSTACK (stack ob) None) junk Hinv).
Qed.

Lemma qObstackGetFinal_after_failure_sample :
  exists ob1 ob2,
    qObstackFinish (Some (pushed ob_AB_finished raw_FGH)) None
    = Ret (None, Some ob1)
    /\ qObstackGetFinal (Some ob1) (Some junk_ff)
       = Ret (Some [x41; x42; x46; x47; x48; x00], Some ob2).
Proof.
  apply (qObstackGetFinal_after_failure (pushed ob_AB_finished raw_FGH) junk_ff).
  apply reachable_inv. exact pushed_stale_reachable.
Defined.

(** X8.  [qObstackGrowStrf] keeps an output whole as long as it has at
    most 1023 bytes: for a non-empty output of that length without zero
    bytes, the new chunk is the output itself (storage permitting). *)
Theorem qObstackGrowStrf_whole {format va_list : Type}
    (render : format -> va_list -> list byte) (ob : Q_OBSTACK) (fmt : format)
    (arglist : va_list) (junk : indeterminate) :
  let out := render fmt arglist in
  out <> [] ->
  (length out <= 1023)%nat ->
  ~ In x00 out ->
  qObstackGrowStrf render (Some ob) fmt arglist junk true
  = Ret (true, Some (pushed ob out)).
Proof.
  cbv zeta. intros Hne Hlen Hz.
  rewrite qObstackGrowStrf_text. cbv zeta.
  rewrite firstn_all2 by exact Hlen.
  rewrite (c_text_zero_free _ Hz).
  rewrite qObstackGrow_pushed.
  - rewrite to_nat_zlength, firstn_all. reflexivity.
  - unfold zlength. destruct (render fmt arglist); [contradiction |].
    cbn [length]. lia.
Qed.

Lemma qObstackGrowStrf_whole_sample :
  qObstackGrowStrf render_verbatim (Some ob_AB) str_CDE tt junk_ff true
  = Ret (true, Some (pushed ob_AB str_CDE)).
Proof.
  apply (qObstackGrowStrf_whole render_verbatim ob_AB str_CDE tt junk_ff).
  - discriminate.
  - apply Nat.leb_le. reflexivity.
  - intros H. repeat (destruct H as [H | H]; [discriminate H |]). exact H.
Defined.

(** * Properties of the file operations *)

Lemma store_ok (s : list byte) (i : Z) (c : byte) :
  0 <= i < zlength s -> store s i c = Ret (overwrite s (Z.to_nat i) [c]).
Proof.
  intros H. unfold store.
  replace (0 <=? i) with true by lia. replace (i <? zlength s) with true by lia.
  reflexivity.
Qed.

Lemma store_undefined (s : list byte) (i : Z) (c : byte) :
  zlength s <= i -> store s i c = Undefined.
Proof.
  intros H. unfold store. replace (i <? zlength s) with false by lia.
  rewrite andb_false_r. reflexivity.
Qed.

Lemma zlength_overwrite (dst : list byte) (pos : nat) (src : list byte) :
  (pos + length src <= length dst)%nat ->
  zlength (overwrite dst pos src) = zlength dst.
Proof. intros H. unfold zlength. rewrite overwrite_length by exact H. reflexivity. Qed.

(** Writing right behind the bytes a buffer starts with. *)
Lemma overwrite_behind (s done src : list byte) :
  firstn (length done) s = done ->
  overwrite s (length done) src
  = done ++ src ++ skipn (length done + length src) s.
Proof. intros H. unfold overwrite. rewrite H. reflexivity. Qed.

Lemma firstn_behind (s done src : list byte) :
  firstn (length done) s = done ->
  firstn (length (done ++ src)) (overwrite s (length done) src) = done ++ src.
Proof.
  intros H. rewrite (overwrite_behind _ _ _ H), app_assoc.
  apply firstn_exact. reflexivity.
Qed.

Lemma int_of_ok (z : Z) : - INT_MAX - 1 <= z <= INT_MAX -> int_of z = Ret z.
Proof.
  intros H. unfold int_of.
  replace (- INT_MAX - 1 <=? z) with true by lia.
  replace (z <=? INT_MAX) with true by lia. reflexivity.
Qed.

Lemma string_holds_start : string_holds read_start [].
Proof.
  split; [reflexivity | split; [cbn; lia | intros H; contradiction]].
Qed.

(** One round of the reading loops: either the allocation it needs
    fails, or the character ends up behind the ones read before. *)
Lemma read_round (alloc : nat -> option indeterminate) (st : read_state)
    (done : list byte) (c : byte) :
  string_holds st done ->
  zlength done + 1 < 2 ^ 30 ->
  (grow_string alloc st = Ret None /\ alloc (mallocs st) = None)
  \/ (exists st1 st2,
        grow_string alloc st = Ret (Some st1)
        /\ put_char st1 c = Ret st2
        /\ string_holds st2 (done ++ [c])).
Proof.
  intros (Hc & Hm & Hs) Hlen.
  assert (Hint : INT_MAX = 2 ^ 31 - 1) by reflexivity.
  assert (Hl1 : zlength (done ++ [c]) = zlength done + 1)
    by (rewrite zlength_app; reflexivity).
  pose proof (zlength_nonneg done) as Hnn.
  unfold grow_string. destruct done as [|d done'].
  - (* the first character *)
    replace (c_count st =? 0) with true by (rewrite Hc; reflexivity).
    unfold malloc. destruct (alloc (mallocs st)) as [junk|]; [right | left; auto].
    do 2 eexists. split; [reflexivity |].
    unfold put_char. cbn [string c_count memsize mallocs]. rewrite Hc.
    assert (Hb : length (block junk (Z.to_nat (memsize st)))
                 = Z.to_nat (memsize st)) by apply block_length.
    rewrite store_ok by (unfold zlength; rewrite Hb; cbn; lia).
    cbn [bind]. rewrite int_of_ok by (cbn; lia). cbn [bind].
    split; [reflexivity |].
    split; [reflexivity | split; [exact Hm |]]. intros _.
    eexists. split; [reflexivity |]. cbn [memsize].
    split; [| split].
    + rewrite zlength_overwrite by (rewrite Hb; cbn; lia).
      unfold zlength. rewrite Hb. lia.
    + cbn. lia.
    + reflexivity.
  - (* a later character *)
    set (done := d :: done') in *.
    destruct Hs as (s & Hstr & Hcap & Hfit & Hfirst); [discriminate |].
    assert (Hpos : 0 < zlength done) by (unfold done, zlength; cbn [length]; lia).
    replace (c_count st =? 0) with false by lia.
    assert (Hlen_s : (length done < length s)%nat) by (unfold zlength in *; lia).
    destruct (c_count st =? memsize st - 1) eqn:Hfull.
    + (* the buffer is full: a new one of twice the size *)
      assert (Hmem : memsize st = zlength done + 1) by lia.
      rewrite int_of_ok by lia. cbn [bind].
      rewrite int_of_ok by lia. cbn [bind].
      unfold malloc. destruct (alloc (mallocs st)) as [junk|]; [right | left; auto].
      rewrite Hstr.
      set (tmp := block junk (Z.to_nat (memsize st * 2 + 1))).
      assert (Hb : length tmp = Z.to_nat (memsize st * 2 + 1))
        by apply block_length.
      unfold memcpy.
      replace (0 <=? c_count st) with true by lia.
      assert (Hzt : zlength tmp = memsize st * 2 + 1)
        by (unfold zlength; rewrite Hb; lia).
      replace (0 + c_count st <=? zlength tmp) with true by lia.
      replace (c_count st <=? zlength s) with true by lia.
      cbn [andb Z.leb Z.compare bind].
      rewrite Hc, to_nat_zlength, Hfirst.
      change (Z.to_nat 0) with 0%nat.
      set (tmp' := overwrite tmp 0 done).
      assert (Hb' : length tmp' = length tmp)
        by (apply overwrite_length; unfold zlength in *; lia).
      assert (Hf' : firstn (length done) tmp' = done)
        by (unfold tmp', overwrite; cbn [firstn app Nat.add];
            apply firstn_exact; reflexivity).
      do 2 eexists. split; [reflexivity |].
      unfold put_char. cbn [string c_count memsize mallocs].
      rewrite store_ok by (unfold zlength in *; lia).
      cbn [bind]. rewrite int_of_ok by lia. cbn [bind].
      split; [reflexivity |].
      split; [cbn [c_count]; lia | split; [cbn [memsize]; lia |]]. intros _.
      eexists. split; [reflexivity |]. cbn [memsize].
      rewrite to_nat_zlength.
      split; [| split].
      * rewrite zlength_overwrite by (cbn [length]; unfold zlength in *; lia).
        unfold zlength in *. lia.
      * lia.
      * apply firstn_behind. exact Hf'.
    + (* there is room *)
      right. exists st. eexists. split; [reflexivity |].
      unfold put_char. rewrite Hstr, Hc.
      rewrite store_ok by lia.
      cbn [bind]. rewrite int_of_ok by lia. cbn [bind].
      split; [reflexivity |].
      split; [cbn [c_count]; lia | split; [exact Hm |]]. intros _.
      eexists. split; [reflexivity |]. cbn [memsize].
      rewrite to_nat_zlength.
      split; [| split].
      * rewrite zlength_overwrite by (cbn [length]; lia). exact Hcap.
      * lia.
      * apply firstn_behind. exact Hfirst.
Qed.

Lemma zlength_cons_app (done : list byte) (c : byte) (rest : list byte) :
  zlength (done ++ c :: rest) = zlength done + 1 + zlength rest.
Proof. unfold zlength. rewrite length_app. cbn [length]. lia. Qed.

(** The reading loop of [qfReadFile] on a stream shorter than 2^30
    bytes: it ends with the whole stream in the buffer, or returns
    [NULL] because an allocation failed. *)
Lemma qfReadFile_loop_holds (alloc : nat -> option indeterminate)
    (fp : list byte) (st : read_state) (done : list byte) :
  string_holds st done ->
  zlength (done ++ fp) < 2 ^ 30 ->
  exists r rest,
    qfReadFile_loop alloc fp st = Ret (r, rest)
    /\ match r with
       | Some st' => rest = [] /\ string_holds st' (done ++ fp)
       | None => exists k, alloc k = None
       end.
Proof.
  revert st done. induction fp as [|c fp IH]; intros st done Hst Hlen.
  - exists (Some st), []. rewrite app_nil_r.
    split; [reflexivity | split; [reflexivity | exact Hst]].
  - rewrite zlength_cons_app in Hlen. pose proof (zlength_nonneg fp) as Hfp.
    cbn [qfReadFile_loop].
    destruct (read_round alloc st done c Hst) as [[Hg Ha] | (st1 & st2 & Hg & Hp & Hst2)];
      [lia | |]; rewrite Hg; cbn [bind].
    + exists None, fp. split; [reflexivity | eauto].
    + rewrite Hp. cbn [bind].
      replace (done ++ c :: fp) with ((done ++ [c]) ++ fp)
        by (rewrite <- app_assoc; reflexivity).
      apply IH; [exact Hst2 |].
      rewrite <- app_assoc. cbn [app]. rewrite zlength_cons_app. lia.
Qed.

(** Terminating the buffer once the loop is over. *)
Lemma end_string_holds (st : read_state) (done : list byte) (eof : bool) :
  string_holds st done ->
  done <> [] ->
  exists tail, end_string st eof = Ret (Some (done ++ x00 :: tail)).
Proof.
  intros (Hc & Hm & Hs) Hne.
  destruct (Hs Hne) as (s & Hstr & Hcap & Hfit & Hfirst).
  assert (Hpos : 0 < zlength done)
    by (destruct done; [contradiction | unfold zlength; cbn [length]; lia]).
  unfold end_string. replace (c_count st =? 0) with false by lia.
  cbn [andb]. rewrite Hstr, Hc, store_ok by lia. cbn [bind].
  rewrite to_nat_zlength, (overwrite_behind _ _ _ Hfirst).
  eexists. reflexivity.
Qed.

(** X9.  With storage available, [qfReadFile] on a non-empty stream
    shorter than 2^30 bytes returns a buffer that starts with the whole
    stream followed by a terminator, and leaves the stream at its end;
    on a stream already at its end it returns [NULL]. *)
Theorem qfReadFile_reads (fp : list byte) (alloc : nat -> option indeterminate) :
  (forall k, alloc k <> None) ->
  zlength fp < 2 ^ 30 ->
  (fp <> [] ->
   exists tail,
     qfReadFile (Some fp) alloc = Ret (Some (fp ++ x00 :: tail), Some []))
  /\ qfReadFile (Some []) alloc = Ret (None, Some []).
Proof.
  intros Halloc Hlen. split; [| reflexivity]. intros Hne.
  destruct (qfReadFile_loop_holds alloc fp read_start [] string_holds_start Hlen)
    as (r & rest & Hloop & Hr).
  unfold qfReadFile. rewrite Hloop. cbn [bind].
  destruct r as [st'|].
  - destruct Hr as [-> Hst]. cbn [app] in Hst.
    destruct (end_string_holds st' fp true Hst Hne) as (tail & ->).
    cbn [bind]. exists tail. reflexivity.
  - destruct Hr as (k & Hk). exfalso. exact (Halloc k Hk).
Qed.

Lemma alloc_always_ok (k : nat) : alloc_always k <> None.
Proof. discriminate. Qed.

Lemma qfReadFile_reads_sample :
  exists tail,
    qfReadFile (Some two_lines) alloc_always
    = Ret (Some (two_lines ++ x00 :: tail), Some []).
Proof.
  apply (proj1 (qfReadFile_reads two_lines alloc_always alloc_always_ok eq_refl)).
  discriminate.
Defined.

(** X10.  Whatever the allocator does, [qfReadFile] on a stream shorter
    than 2^30 bytes stays within its buffers: it returns either [NULL]
    or a buffer that starts with the whole stream and a terminator.  It
    returns [NULL] only at the end of the stream or after a failed
    allocation. *)
Theorem qfReadFile_in_bounds (fp : list byte) (alloc : nat -> option indeterminate) :
  zlength fp < 2 ^ 30 ->
  exists r rest,
    qfReadFile (Some fp) alloc = Ret (r, Some rest)
    /\ match r with
       | Some buf => rest = [] /\ exists tail, buf = fp ++ x00 :: tail
       | None => fp = [] \/ exists k, alloc k = None
       end.
Proof.
  intros Hlen.
  destruct (qfReadFile_loop_holds alloc fp read_start [] string_holds_start Hlen)
    as (r & rest & Hloop & Hr).
  unfold qfReadFile. rewrite Hloop. cbn [bind].
  destruct r as [st'|].
  - destruct Hr as [-> Hst]. cbn [app] in Hst.
    destruct fp as [|c fp'].
    + exists None, []. split; [| left; reflexivity].
      destruct Hst as (Hc & _). unfold end_string. rewrite Hc. reflexivity.
    + destruct (end_string_holds st' (c :: fp') true Hst) as (tail & ->);
        [discriminate |].
      cbn [bind]. do 2 eexists. split; [reflexivity |].
      split; [reflexivity | exists tail; reflexivity].
  - exists None, rest. split; [reflexivity | right; exact Hr].
Qed.

Lemma qfReadFile_in_bounds_sample :
  exists r rest,
    qfReadFile (Some two_lines) alloc_never = Ret (r, Some rest)
    /\ match r with
       | Some buf => rest = [] /\ exists tail, buf = two_lines ++ x00 :: tail
       | None => two_lines = [] \/ exists k, alloc_never k = None
       end.
Proof. exact (qfReadFile_in_bounds two_lines alloc_never eq_refl). Defined.

(** ** Lines *)

Lemma first_line_app (fp : list byte) :
  fst (first_line fp) ++ snd (first_line fp) = fp.
Proof.
  induction fp as [|c fp IH]; cbn [first_line]; [reflexivity |].
  destruct (Byte.eqb c x0a); [reflexivity |].
  destruct (first_line fp) as [line rest]. cbn [fst snd app] in *.
  rewrite IH. reflexivity.
Qed.

Lemma first_line_newline (fp : list byte) :
  (In x0a fp ->
   exists l, fst (first_line fp) = l ++ [x0a] /\ ~ In x0a l)
  /\ (~ In x0a fp -> first_line fp = (fp, [])).
Proof.
  induction fp as [|c fp [IHin IHout]]; cbn [first_line].
  - split; [intros [] | reflexivity].
  - destruct (Byte.eqb c x0a) eqn:E.
    + apply Byte.byte_dec_bl in E. subst c. split.
      * intros _. exists []. split; [reflexivity | intros []].
      * intros H. exfalso. apply H. left. reflexivity.
    + apply Byte.eqb_false in E.
      destruct (first_line fp) as [line rest]. cbn [fst] in *. split.
      * intros [Hc | Hin]; [congruence |].
        destruct (IHin Hin) as (l & -> & Hl). exists (c :: l).
        split; [reflexivity |]. intros [Hc | Hin']; [congruence | exact (Hl Hin')].
      * intros H.
        assert (Hout : (line, rest) = (fp, []))
          by (apply IHout; intros Hin; apply H; right; exact Hin).
        injection Hout as -> ->. reflexivity.
Qed.

Lemma first_line_nonempty (fp : list byte) :
  fp <> [] -> fst (first_line fp) <> [].
Proof.
  destruct fp as [|c fp]; [contradiction |]. intros _. cbn [first_line].
  destruct (Byte.eqb c x0a); [discriminate |].
  destruct (first_line fp). discriminate.
Qed.

(** The reading loop of [qfGetLine]: it ends with the first line in the
    buffer and the stream right behind that line, or returns [NULL]
    because an allocation failed. *)
Lemma qfGetLine_loop_holds (alloc : nat -> option indeterminate)
    (fp : list byte) (st : read_state) (done : list byte) :
  string_holds st done ->
  zlength (done ++ fst (first_line fp)) < 2 ^ 30 ->
  exists r rest,
    qfGetLine_loop alloc fp st = Ret (r, rest)
    /\ match r with
       | Some (st', _) =>
           rest = snd (first_line fp)
           /\ string_holds st' (done ++ fst (first_line fp))
       | None => exists k, alloc k = None
       end.
Proof.
  revert st done. induction fp as [|c fp IH]; intros st done Hst Hlen.
  - exists (Some (st, true)), []. cbn [first_line fst snd]. rewrite app_nil_r.
    split; [reflexivity | split; [reflexivity | exact Hst]].
  - cbn [qfGetLine_loop first_line] in *.
    assert (Hone : zlength done + 1 < 2 ^ 30).
    { destruct (Byte.eqb c x0a); [| destruct (first_line fp) as [line rest']];
        cbn [fst] in Hlen; rewrite zlength_cons_app in Hlen;
        pose proof (zlength_nonneg (A := byte)) as Hnn;
        [specialize (Hnn []) | specialize (Hnn line)]; lia. }
    destruct (read_round alloc st done c Hst Hone)
      as [[Hg Ha] | (st1 & st2 & Hg & Hp & Hst2)]; rewrite Hg; cbn [bind].
    + exists None, fp. split; [reflexivity | eauto].
    + rewrite Hp. cbn [bind]. destruct (Byte.eqb c x0a).
      * exists (Some (st2, false)), fp. cbn [fst snd].
        split; [reflexivity | split; [reflexivity | exact Hst2]].
      * specialize (IH st2 (done ++ [c]) Hst2).
        destruct (first_line fp) as [line rest']. cbn [fst snd] in *.
        replace (done ++ c :: line) with ((done ++ [c]) ++ line)
          by (rewrite <- app_assoc; reflexivity).
        apply IH. rewrite <- app_assoc. exact Hlen.
Qed.

(** X11.  With storage available, [qfGetLine] on a stream that is not
    at its end returns a buffer that starts with the first line, its
    newline included, followed by a terminator, and leaves the stream
    right behind that line.  The line and the rest make up the stream;
    the line ends with the first newline of the stream, or is the whole
    stream when there is none.  At the end of the stream the result is
    [NULL]. *)
Theorem qfGetLine_line (fp : list byte) (alloc : nat -> option indeterminate) :
  let line := fst (first_line fp) in
  let rest := snd (first_line fp) in
  (forall k, alloc k <> None) ->
  zlength line < 2 ^ 30 ->
  (fp <> [] ->
   exists tail,
     qfGetLine (Some fp) alloc = Ret (Some (line ++ x00 :: tail), Some rest))
  /\ line ++ rest = fp
  /\ (In x0a fp -> exists l, line = l ++ [x0a] /\ ~ In x0a l)
  /\ (~ In x0a fp -> line = fp /\ rest = [])
  /\ qfGetLine (Some []) alloc = Ret (None, Some []).
Proof.
  cbv zeta. intros Halloc Hlen.
  split; [| split; [apply first_line_app | split; [| split; [| reflexivity]]]].
  - intros Hne.
    destruct (qfGetLine_loop_holds alloc fp read_start [] string_holds_start Hlen)
      as (r & rest & Hloop & Hr).
    unfold qfGetLine. rewrite Hloop. cbn [bind].
    destruct r as [[st' eof]|].
    + destruct Hr as [-> Hst]. cbn [app] in Hst.
      destruct (end_string_holds st' _ eof Hst (first_line_nonempty fp Hne))
        as (tail & ->).
      cbn [bind]. exists tail. reflexivity.
    + destruct Hr as (k & Hk). exfalso. exact (Halloc k Hk).
  - apply (proj1 (first_line_newline fp)).
  - intros H. rewrite (proj2 (first_line_newline fp) H). split; reflexivity.
Qed.

Lemma qfGetLine_line_sample :
  exists tail,
    qfGetLine (Some two_lines) alloc_always
    = Ret (Some ([x61; x62; x0a] ++ x00 :: tail), Some [x63; x64]).
Proof.
  apply (proj1 (qfGetLine_line two_lines alloc_always alloc_always_ok eq_refl)).
  discriminate.
Defined.

(** X12.  Whatever the allocator does, [qfGetLine] on a stream whose
    first line is shorter than 2^30 bytes stays within its buffers: it
    returns either [NULL] or a buffer that starts with the first line
    and a terminator, the stream being left right behind that line.  It
    returns [NULL] only at the end of the stream or after a failed
    allocation. *)
Theorem qfGetLine_in_bounds (fp : list byte) (alloc : nat -> option indeterminate) :
  zlength (fst (first_line fp)) < 2 ^ 30 ->
  exists r rest,
    qfGetLine (Some fp) alloc = Ret (r, Some rest)
    /\ match r with
       | Some buf =>
           rest = snd (first_line fp)
           /\ exists tail, buf = fst (first_line fp) ++ x00 :: tail
       | None => fp = [] \/ exists k, alloc k = None
       end.
Proof.
  intros Hlen.
  destruct (qfGetLine_loop_holds alloc fp read_start [] string_holds_start Hlen)
    as (r & rest & Hloop & Hr).
  unfold qfGetLine. rewrite Hloop. cbn [bind].
  destruct r as [[st' eof]|].
  - destruct Hr as [-> Hst]. cbn [app] in Hst.
    destruct fp as [|c fp'].
    + exists None, []. split; [| left; reflexivity].
      cbn in Hloop. injection Hloop as <- <-. reflexivity.
    + destruct (end_string_holds st' _ eof Hst
                  (first_line_nonempty (c :: fp') ltac:(discriminate)))
        as (tail & ->).
      cbn [bind]. do 2 eexists. split; [reflexivity |].
      split; [reflexivity | exists tail; reflexivity].
  - exists None, rest. split; [reflexivity | right; exact Hr].
Qed.

Lemma qfGetLine_in_bounds_sample :
  exists r rest,
    qfGetLine (Some two_lines) alloc_never = Ret (r, Some rest)
    /\ match r with
       | Some buf =>
           rest = snd (first_line two_lines)
           /\ exists tail, buf = fst (first_line two_lines) ++ x00 :: tail
       | None => two_lines = [] \/ exists k, alloc_never k = None
       end.
Proof. exact (qfGetLine_in_bounds two_lines alloc_never eq_refl). Defined.

(** ** Commands *)

(** X13.  When [popen] has succeeded and storage is available, [qCmd]
    returns the output of the command (shorter than 2^30 bytes)
    followed by a terminator; for a command without output that is the
    empty string, not [NULL].  When [popen] fails the result is
    [NULL]. *)
Theorem qCmd_output (out : list byte) (alloc : nat -> option indeterminate) :
  (forall k, alloc k <> None) ->
  zlength out < 2 ^ 30 ->
  (exists tail, qCmd (Some out) alloc true = Ret (Some (out ++ x00 :: tail)))
  /\ qCmd (Some []) alloc true = Ret (Some [x00])
  /\ qCmd None alloc true = Ret None.
Proof.
  intros Halloc Hlen. split; [| split; reflexivity].
  destruct out as [|c out'].
  - exists []. reflexivity.
  - destruct (qfReadFile_loop_holds alloc (c :: out') read_start []
                string_holds_start Hlen) as (r & rest & Hloop & Hr).
    unfold qCmd, qfReadFile. rewrite Hloop. cbn [bind].
    destruct r as [st'|].
    + destruct Hr as [-> Hst]. cbn [app] in Hst.
      destruct (end_string_holds st' _ true Hst) as (tail & ->); [discriminate |].
      cbn [bind]. exists tail. reflexivity.
    + destruct Hr as (k & Hk). exfalso. exact (Halloc k Hk).
Qed.

Lemma qCmd_output_sample :
  exists tail, qCmd (Some two_lines) alloc_always true
               = Ret (Some (two_lines ++ x00 :: tail)).
Proof.
  exact (proj1 (qCmd_output two_lines alloc_always alloc_always_ok eq_refl)).
Defined.

(** X14.  [qCmd] hides a failed allocation: when the first [malloc] of
    the reading fails, the command's output, however long, comes back
    as the empty string, the same result as for a command that printed
    nothing. *)
Theorem qCmd_hides_alloc_failure (out : list byte)
    (alloc : nat -> option indeterminate) :
  alloc 0%nat = None ->
  qCmd (Some out) alloc true = Ret (Some [x00]).
Proof.
  intros Ha. destruct out as [|c out']; [reflexivity |].
  unfold qCmd, qfReadFile. cbn [qfReadFile_loop].
  unfold grow_string, read_start, malloc. cbn [c_count mallocs Z.eqb].
  rewrite Ha. reflexivity.
Qed.

Lemma qCmd_hides_alloc_failure_sample :
  qCmd (Some two_lines) alloc_never true = Ret (Some [x00]).
Proof. exact (qCmd_hides_alloc_failure two_lines alloc_never eq_refl). Defined.

(** ** Loading and saving *)

(** The loop of [qFileLoad] while the stream fits the buffer. *)
Lemma qFileLoad_loop_fits (fp s done : list byte) :
  firstn (length done) s = done ->
  zlength (done ++ fp) <= INT_MAX ->
  zlength (done ++ fp) <= zlength s ->
  exists s',
    qFileLoad_loop fp (Some s) (zlength done)
    = Ret (Some s', zlength (done ++ fp))
    /\ length s' = length s
    /\ firstn (length (done ++ fp)) s' = done ++ fp.
Proof.
  revert s done. induction fp as [|c fp IH]; intros s done Hfirst Hint Hfit.
  - exists s. rewrite app_nil_r. repeat split. exact Hfirst.
  - rewrite zlength_cons_app in Hint, Hfit.
    pose proof (zlength_nonneg done) as Hd. pose proof (zlength_nonneg fp) as Hf.
    cbn [qFileLoad_loop]. rewrite store_ok by lia. cbn [bind].
    rewrite int_of_ok by (unfold INT_MAX in *; lia). cbn [bind].
    rewrite to_nat_zlength.
    assert (Hlen' : length (overwrite s (length done) [c]) = length s)
      by (apply overwrite_length; unfold zlength in *; cbn [length]; lia).
    replace (zlength done + 1) with (zlength (done ++ [c]))
      by (rewrite zlength_app; reflexivity).
    replace (done ++ c :: fp) with ((done ++ [c]) ++ fp)
      by (rewrite <- app_assoc; reflexivity).
    destruct (IH (overwrite s (length done) [c]) (done ++ [c])) as (s' & Hl & Hlen & Hf').
    + apply firstn_behind. exact Hfirst.
    + rewrite <- app_assoc. cbn [app]. rewrite zlength_cons_app. lia.
    + rewrite <- app_assoc. cbn [app]. rewrite zlength_cons_app.
      unfold zlength in *. lia.
    + exists s'. rewrite Hl. repeat split; [congruence | exact Hf'].
Qed.

(** The same loop when the stream is longer than the buffer has room
    for it and a terminator. *)
Lemma qFileLoad_loop_overflow (fp s : list byte) (i : Z) :
  0 <= i ->
  zlength s <= i + zlength fp ->
  qFileLoad_loop fp (Some s) i = Undefined
  \/ exists s', qFileLoad_loop fp (Some s) i = Ret (Some s', i + zlength fp)
                /\ zlength s' = zlength s.
Proof.
  revert s i. induction fp as [|c fp IH]; intros s i Hi Hs.
  - right. exists s. split; [| reflexivity]. cbn. f_equal. f_equal. lia.
  - cbn [qFileLoad_loop].
    assert (Hz : zlength (c :: fp) = 1 + zlength fp)
      by (unfold zlength; cbn [length]; lia).
    rewrite Hz in *.
    destruct (Z_lt_le_dec i (zlength s)) as [Hin | Hout].
    + rewrite store_ok by lia. cbn [bind].
      destruct (int_of (i + 1)) as [i'|] eqn:Ei; cbn [bind]; [| left; reflexivity].
      unfold int_of in Ei.
      destruct ((- INT_MAX - 1 <=? i + 1) && (i + 1 <=? INT_MAX)); [| discriminate].
      injection Ei as <-.
      assert (Hlen : zlength (overwrite s (Z.to_nat i) [c]) = zlength s)
        by (apply zlength_overwrite; unfold zlength in *; cbn [length]; lia).
      destruct (IH (overwrite s (Z.to_nat i) [c]) (i + 1)) as [-> | (s' & -> & Hs')];
        [lia | lia | left; reflexivity |].
      right. exists s'. split; [f_equal; f_equal; lia | congruence].
    + rewrite store_undefined by lia. left. reflexivity.
Qed.

Lemma qFileLoad_loaded (content : list byte) (junk : indeterminate)
    (size : option Z) :
  zlength content <= INT_MAX ->
  qFileLoad (Some (zlength content)) (Some content) (Some junk) size
  = Ret (Some (content ++ [x00]),
         match size with Some _ => Some (zlength content) | None => None end,
         None).
Proof.
  intros Hint. unfold qFileLoad, malloc.
  set (s := block junk (Z.to_nat (zlength content + 1))).
  assert (Hs : length s = (length content + 1)%nat)
    by (unfold s; rewrite block_length; unfold zlength; lia).
  destruct (qFileLoad_loop_fits content s [] eq_refl Hint) as (s' & Hl & Hlen & Hf).
  { unfold zlength. cbn [app]. lia. }
  change (zlength []) with 0 in Hl. cbn [app] in Hl, Hf.
  rewrite Hl. cbn [bind]. rewrite store_ok by (unfold zlength; lia).
  cbn [bind]. rewrite Z.eqb_refl. cbn [negb].
  rewrite to_nat_zlength, (overwrite_behind _ _ _ Hf).
  rewrite skipn_all2 by (cbn [length]; lia). reflexivity.
Qed.


(** X15.  When the stream holds exactly the [st_size] bytes that [stat]
    reported (an [int] at most), [qFileLoad] returns those bytes followed
    by a terminator, stores their number through [size] unless that
    pointer is null, and closes the stream. *)
Theorem qFileLoad_exact (content : list byte) (junk : indeterminate)
    (size : option Z) :
  zlength content <= INT_MAX ->
  qFileLoad (Some (zlength content)) (Some content) (Some junk) size
  = Ret (Some (content ++ [x00]),
         match size with Some _ => Some (zlength content) | None => None end,
         None).
Proof. apply qFileLoad_loaded. Qed.

(** X16.  When the stream ends before the [st_size] bytes that [stat]
    reported, [qFileLoad] returns [NULL], leaves the object behind
    [size] alone, and does not close the stream. *)
Theorem qFileLoad_short (st_size : Z) (content : list byte)
    (junk : indeterminate) (size : option Z) :
  zlength content < st_size ->
  zlength content <= INT_MAX ->
  qFileLoad (Some st_size) (Some content) (Some junk) size
  = Ret (None, size, Some []).
Proof.
  intros Hshort Hint. unfold qFileLoad, malloc.
  set (s := block junk (Z.to_nat (st_size + 1))).
  pose proof (zlength_nonneg content) as Hc.
  assert (Hs : zlength s = st_size + 1)
    by (unfold s, zlength; rewrite block_length; lia).
  destruct (qFileLoad_loop_fits content s [] eq_refl Hint) as (s' & Hl & Hlen & Hf).
  { cbn [app]. lia. }
  change (zlength []) with 0 in Hl. cbn [app] in Hl.
  rewrite Hl. cbn [bind].
  rewrite store_ok by (unfold zlength in *; lia). cbn [bind].
  replace (st_size =? zlength content) with false by lia. reflexivity.
Qed.

Lemma qFileLoad_short_sample :
  qFileLoad (Some 6) (Some two_lines) (Some junk_ff) (Some 0)
  = Ret (None, Some 0, Some []).
Proof.
  apply (qFileLoad_short 6 two_lines junk_ff (Some 0)); [reflexivity | discriminate].
Defined.

Lemma qFileLoad_exact_sample :
  qFileLoad (Some 5) (Some two_lines) (Some junk_ff) (Some 0)
  = Ret (Some (two_lines ++ [x00]), Some 5, None).
Proof. apply (qFileLoad_exact two_lines junk_ff (Some 0)). discriminate. Defined.

(** X17.  [qFileLoad] is undefined when the stream holds more bytes than
    [stat] reported (it writes behind its buffer), and when its
    [malloc] fails (it writes through the null pointer); neither case
    is answered with [NULL]. *)
Theorem qFileLoad_undefined (st_size : Z) (content : list byte)
    (m : option indeterminate) (size : option Z) :
  (0 <= st_size < zlength content \/ m = None) ->
  qFileLoad (Some st_size) (Some content) m size = Undefined.
Proof.
  intros [Hlong | ->]; unfold qFileLoad, malloc.
  - destruct m as [junk|].
    + set (s := block junk (Z.to_nat (st_size + 1))).
      assert (Hs : zlength s = st_size + 1)
        by (unfold s, zlength; rewrite block_length; lia).
      destruct (qFileLoad_loop_overflow content s 0) as [-> | (s' & -> & Hs')];
        [lia | lia | reflexivity |].
      cbn [bind]. rewrite store_undefined by lia. reflexivity.
    + destruct content; reflexivity.
  - destruct content; reflexivity.
Qed.

Lemma qFileLoad_undefined_sample :
  qFileLoad (Some 4) (Some two_lines) (Some junk_ff) None = Undefined
  /\ qFileLoad (Some 5) (Some two_lines) None None = Undefined.
Proof.
  split.
  - apply (qFileLoad_undefined 4 two_lines (Some junk_ff) None).
    left. split; [discriminate | reflexivity].
  - apply (qFileLoad_undefined 5 two_lines None None). right. reflexivity.
Defined.

(** Two adjacent writes, the second one possibly growing the object. *)
Lemma overwrite_extend (dst : list byte) (pos : nat) (a b : list byte) :
  (pos <= length dst)%nat ->
  overwrite (overwrite dst pos a) (pos + length a) b = overwrite dst pos (a ++ b).
Proof.
  intros H. unfold overwrite at 1 3.
  assert (Hp : length (firstn pos dst ++ a) = (pos + length a)%nat)
    by (rewrite length_app, length_firstn; lia).
  unfold overwrite. rewrite (app_assoc (firstn pos dst) a).
  rewrite firstn_exact by exact Hp.
  rewrite <- (Nat.add_comm (length b)), <- skipn_skipn.
  rewrite (skipn_exact _ _ _ Hp), skipn_skipn.
  rewrite length_app, <- !app_assoc.
  do 3 f_equal. f_equal. lia.
Qed.

(** The loop of [qSaveStr] when every byte gets through: the bytes
    replace what the file holds from the position on. *)
Lemma qSaveStr_loop_writes (todo : nat) (i : Z) (sp : list byte) (fp : FILE)
    (put_ok : Z -> bool) :
  (forall j, put_ok j = true) ->
  writable fp = true ->
  (append fp = true -> position fp = length (contents fp)) ->
  (position fp <= length (contents fp))%nat ->
  (todo <= length sp)%nat ->
  qSaveStr_loop todo i (Some sp) fp put_ok
  = Ret (i + Z.of_nat todo,
         Build_FILE (overwrite (contents fp) (position fp) (firstn todo sp))
           (position fp + todo) true (append fp)).
Proof.
  intros Hok. revert i sp fp.
  induction todo as [|todo IH]; intros i sp fp Hw Ha Hp Hlen.
  - cbn [qSaveStr_loop firstn Z.of_nat]. rewrite overwrite_nil, Z.add_0_r, Nat.add_0_r.
    destruct fp. cbn in *. subst. reflexivity.
  - destruct sp as [|b sp]; [cbn [length] in Hlen; lia |].
    cbn [qSaveStr_loop firstn]. unfold fputc. rewrite Hw, Hok. cbn [andb].
    assert (Hpos : (if append fp then length (contents fp) else position fp)
                   = position fp)
      by (destruct (append fp); [symmetry; apply Ha; reflexivity | reflexivity]).
    rewrite Hpos.
    assert (Hlen1 : (S (position fp) <= length (overwrite (contents fp) (position fp) [b]))%nat).
    { unfold overwrite. rewrite !length_app, length_firstn. cbn [length]. lia. }
    rewrite IH; cbn [contents position writable append].
    + replace (S (position fp)) with (position fp + length [b])%nat
        by (cbn [length]; lia).
      rewrite overwrite_extend by exact Hp. cbn [length app].
      do 2 f_equal; [lia |]. f_equal. lia.
    + reflexivity.
    + intros Happ. specialize (Ha Happ). unfold overwrite.
      rewrite Ha, firstn_all, skipn_all2 by (cbn [length]; lia).
      rewrite !length_app. cbn [length]. lia.
    + exact Hlen1.
    + cbn [length] in Hlen. lia.
Qed.




(** The side conditions of the loop lemmas on a stream just opened. *)
Ltac stream_side :=
  cbn [contents position writable append length];
  first [ assumption | reflexivity | discriminate
        | (unfold zlength in *; lia) ].

(** Saving under "w". *)
Lemma qSaveStr_mode_w (sp : list byte) (spsize : Z) (file : option (list byte))
    (flags : list byte) (put_ok : Z -> bool) :
  (forall j, put_ok j = true) ->
  0 <= spsize <= zlength sp ->
  qSaveStr (Some sp) spsize file (x77 :: flags) true put_ok
  = Ret (spsize, Some (firstn (Z.to_nat spsize) sp)).
Proof.
  intros Hok Hs. unfold qSaveStr, fopen. cbn [negb].
  rewrite qSaveStr_loop_writes by stream_side.
  cbn [bind contents position]. unfold overwrite.
  rewrite skipn_nil, app_nil_r. cbn [firstn app].
  do 2 f_equal. lia.
Qed.

(** X18.  [qSaveStr] with [spsize] bytes to take from a buffer that has
    them, every byte getting through, returns [spsize] and leaves a
    file that depends on the mode: under "w" the file holds exactly the
    bytes, under "a" it holds what was there followed by the bytes,
    under "r+" the bytes replace the beginning of what was there. *)
Theorem qSaveStr_writes (sp : list byte) (spsize : Z) (file : option (list byte))
    (flags : list byte) (put_ok : Z -> bool) :
  (forall j, put_ok j = true) ->
  0 <= spsize <= zlength sp ->
  let bytes := firstn (Z.to_nat spsize) sp in
  qSaveStr (Some sp) spsize file (x77 :: flags) true put_ok
  = Ret (spsize, Some bytes)
  /\ qSaveStr (Some sp) spsize file (x61 :: flags) true put_ok
     = Ret (spsize,
            Some (match file with Some old => old | None => [] end ++ bytes))
  /\ (forall old, file = Some old -> has_plus flags = true ->
        qSaveStr (Some sp) spsize file (x72 :: flags) true put_ok
        = Ret (spsize, Some (bytes ++ skipn (length bytes) old))).
Proof.
  intros Hok Hs. cbv zeta.
  assert (Hn : (Z.to_nat spsize <= length sp)%nat) by (unfold zlength in Hs; lia).
  split; [apply qSaveStr_mode_w; assumption | split].
  - unfold qSaveStr, fopen. cbn [negb].
    rewrite qSaveStr_loop_writes by stream_side.
    cbn [bind contents position]. unfold overwrite.
    rewrite firstn_all, skipn_all2, app_nil_r by lia.
    do 2 f_equal. lia.
  - intros old -> Hplus. unfold qSaveStr, fopen. cbn [negb]. rewrite Hplus.
    rewrite qSaveStr_loop_writes by stream_side.
    cbn [bind contents position]. unfold overwrite. cbn [firstn app Nat.add].
    do 2 f_equal. lia.
Qed.

Lemma put_always_ok (j : Z) : put_always j = true.
Proof. reflexivity. Qed.

Lemma qSaveStr_writes_sample :
  qSaveStr (Some two_lines) 3 (Some [x7a; x7a; x7a; x7a]) mode_w true put_always
  = Ret (3, Some [x61; x62; x0a])
  /\ qSaveStr (Some two_lines) 3 (Some [x7a; x7a; x7a; x7a]) mode_a true put_always
     = Ret (3, Some [x7a; x7a; x7a; x7a; x61; x62; x0a])
  /\ qSaveStr (Some two_lines) 3 (Some [x7a; x7a; x7a; x7a]) mode_r_plus true
       put_always
     = Ret (3, Some [x61; x62; x0a; x7a]).
Proof.
  assert (Hs : 0 <= 3 <= zlength two_lines) by (split; discriminate).
  destruct (qSaveStr_writes two_lines 3 (Some [x7a; x7a; x7a; x7a]) []
              put_always put_always_ok Hs) as (Hw & Ha & _).
  destruct (qSaveStr_writes two_lines 3 (Some [x7a; x7a; x7a; x7a]) [x2b]
              put_always put_always_ok Hs) as (_ & _ & Hr).
  split; [exact Hw | split; [exact Ha |]].
  apply (Hr [x7a; x7a; x7a; x7a]); reflexivity.
Defined.

(** X19.  Saving and loading again: the file that [qSaveStr] writes
    under mode "w", every byte getting through, read back by
    [qFileLoad] under the size [stat] then reports, yields the saved
    bytes followed by a terminator, and their number through [size]. *)
Theorem qSaveStr_qFileLoad (sp : list byte) (spsize : Z)
    (file : option (list byte)) (flags : list byte) (put_ok : Z -> bool)
    (junk : indeterminate) (old : Z) :
  (forall j, put_ok j = true) ->
  0 <= spsize <= zlength sp ->
  spsize <= INT_MAX ->
  exists saved,
    qSaveStr (Some sp) spsize file (x77 :: flags) true put_ok
    = Ret (spsize, Some saved)
    /\ qFileLoad (Some (zlength saved)) (Some saved) (Some junk) (Some old)
       = Ret (Some (firstn (Z.to_nat spsize) sp ++ [x00]), Some spsize, None).
Proof.
  intros Hok Hs Hint. exists (firstn (Z.to_nat spsize) sp).
  assert (Hz : zlength (firstn (Z.to_nat spsize) sp) = spsize)
    by (apply zlength_firstn; exact Hs).
  split; [apply qSaveStr_mode_w; assumption |].
  rewrite (qFileLoad_loaded _ junk (Some old)) by (rewrite Hz; exact Hint).
  rewrite Hz. reflexivity.
Qed.

Lemma qSaveStr_qFileLoad_sample :
  exists saved,
    qSaveStr (Some two_lines) 3 (Some [x7a]) mode_w true put_always
    = Ret (3, Some saved)
    /\ qFileLoad (Some (zlength saved)) (Some saved) (Some junk_ff) (Some 0)
       = Ret (Some [x61; x62; x0a; x00], Some 3, None).
Proof.
  apply (qSaveStr_qFileLoad two_lines 3 (Some [x7a]) [] put_always junk_ff 0
           put_always_ok).
  - split; discriminate.
  - discriminate.
Defined.



(** ** Sending *)

(** X20.  [qFileSend] with [size] 0 transfers nothing: its first [read]
    asks for 0 bytes, so the loop is left at once, with 0 as the result
    and both descriptors as they were, whatever the input holds. *)
Theorem qFileSend_zero (rd wr : nat -> Z) (outfd infd : list byte) :
  qFileSend rd wr outfd infd 0 = Some (0, infd, outfd).
Proof.
  unfold qFileSend. cbn [Z.to_nat qFileSend_loop Z.eqb orb].
  change (size_t_of (0 - 0)) with 0.
  change (0 <=? Q_FILESEND_CHUNK_SIZE) with true. cbv iota.
  unfold sys_read. destruct (rd 0%nat <? 0); [reflexivity |].
  replace (Z.to_nat (Z.min 0 (rd 0%nat))) with 0%nat by lia.
  reflexivity.
Qed.

Lemma firstn_length_firstn {A : Type} (m : nat) (l : list A) :
  firstn (length (firstn m l)) l = firstn m l
  /\ skipn (length (firstn m l)) l = skipn m l.
Proof.
  rewrite length_firstn. destruct (Nat.le_gt_cases m (length l)) as [H | H].
  - rewrite Nat.min_l by exact H. split; reflexivity.
  - rewrite Nat.min_r by lia.
    rewrite firstn_all, skipn_all, firstn_all2, skipn_all2 by lia.
    split; reflexivity.
Qed.

Lemma firstn_plus {A : Type} (a b : nat) (l : list A) :
  firstn (a + b) l = firstn a l ++ firstn b (skipn a l).
Proof.
  revert l. induction a as [|a IH]; intros l; [reflexivity |].
  destruct l as [|x l]; cbn [Nat.add firstn skipn app].
  - rewrite firstn_nil. reflexivity.
  - rewrite IH. reflexivity.
Qed.

(** What [read] delivers. *)
Lemma sys_read_spec (limit count : Z) (input : list byte) :
  0 <= count ->
  let '(retr, buf, input') := sys_read limit count input in
  (limit < 0 /\ retr = -1 /\ input' = input)
  \/ (0 <= retr /\ retr = Z.min (Z.min count limit) (zlength input)
      /\ buf = firstn (Z.to_nat retr) input
      /\ input' = skipn (Z.to_nat retr) input).
Proof.
  intros Hc. unfold sys_read. destruct (limit <? 0) eqn:E; [left; repeat split; lia |].
  right. set (m := Z.to_nat (Z.min count limit)).
  destruct (firstn_length_firstn m input) as [Hf Hs].
  rewrite to_nat_zlength, Hf, Hs.
  split; [apply zlength_nonneg |]. split; [| split; reflexivity].
  unfold zlength. rewrite length_firstn. unfold m. lia.
Qed.

(** What [write] takes, of a buffer filled to [count]. *)
Lemma sys_write_spec (limit : Z) (buf : list byte) (count : Z) (output : list byte) :
  count = zlength buf ->
  let '(retw, output') := sys_write limit buf count output in
  (limit < 0 /\ retw = -1 /\ output' = output)
  \/ (0 <= retw /\ retw = Z.min count limit
      /\ output' = output ++ firstn (Z.to_nat retw) buf).
Proof.
  intros Hc. unfold sys_write. destruct (limit <? 0) eqn:E; [left; repeat split; lia |].
  right. set (m := Z.to_nat (Z.min count limit)).
  destruct (firstn_length_firstn m buf) as [Hf _].
  rewrite to_nat_zlength, Hf.
  split; [apply zlength_nonneg |]. split; [| reflexivity].
  unfold zlength. rewrite length_firstn. unfold m, zlength in *. lia.
Qed.

Lemma size_t_of_small (z : Z) : 0 <= z <= SIZE_MAX -> size_t_of z = z.
Proof. intros H. unfold size_t_of. apply Z.mod_small. lia. Qed.

(** The loop of [qFileSend] for a positive [size]: it ends within
    [size - sent] rounds, having moved a prefix of the input. *)
Lemma qFileSend_loop_prefix (fuel : nat) (rd wr : nat -> Z) (k : nat)
    (size sent : Z) (infd outfd : list byte) :
  0 < size <= SIZE_MAX ->
  0 <= sent <= size ->
  (Z.to_nat (size - sent) < fuel)%nat ->
  exists n infd' lost,
    qFileSend_loop fuel rd wr k size sent infd outfd
    = Some (sent + n, infd', outfd ++ firstn (Z.to_nat n) infd)
    /\ 0 <= n <= size - sent
    /\ n <= zlength infd
    /\ skipn (Z.to_nat n) infd = lost ++ infd'.
Proof.
  intros Hsize. revert k sent infd outfd.
  induction fuel as [|fuel IH]; intros k sent infd outfd Hsent Hfuel; [lia |].
  pose proof (zlength_nonneg infd) as Hin.
  cbn [qFileSend_loop]. replace (size =? 0) with false by lia. cbn [orb].
  destruct (sent <? size) eqn:Hlt.
  2:{ exists 0, infd, []. rewrite Z.add_0_r. cbn [Z.to_nat firstn skipn app].
      rewrite app_nil_r. repeat split; lia. }
  rewrite size_t_of_small by lia.
  set (sendsize := if size - sent <=? Q_FILESEND_CHUNK_SIZE
                   then size - sent else Q_FILESEND_CHUNK_SIZE).
  assert (Hsend : 0 < sendsize <= size - sent).
  { unfold sendsize, Q_FILESEND_CHUNK_SIZE.
    destruct (size - sent <=? 256 * 1024) eqn:E; lia. }
  pose proof (sys_read_spec (rd k) sendsize infd) as Hr.
  destruct (sys_read (rd k) sendsize infd) as [[retr buf] infd1].
  destruct Hr as [(Hneg & -> & ->) | (Hr0 & Hr & -> & ->)]; [lia | |].
  { (* the read fails *)
    cbn [Z.leb Z.compare Z.opp].
    exists 0, infd, []. rewrite Z.add_0_r. cbn [Z.to_nat firstn skipn app].
    rewrite app_nil_r. repeat split; lia. }
  assert (Hr1 : retr <= sendsize) by lia.
  assert (Hr2 : retr <= zlength infd) by lia. clear Hr.
  destruct (retr <=? 0) eqn:Hre.
  { (* nothing was read *)
    assert (retr = 0) by lia. subst retr. cbn [Z.to_nat skipn].
    exists 0, infd, []. rewrite Z.add_0_r. cbn [Z.to_nat firstn skipn app].
    rewrite app_nil_r. repeat split; lia. }
  set (buf := firstn (Z.to_nat retr) infd).
  assert (Hbuf : retr = zlength buf).
  { unfold buf, zlength. rewrite length_firstn. unfold zlength in *. lia. }
  pose proof (sys_write_spec (wr k) buf retr outfd Hbuf) as Hw.
  destruct (sys_write (wr k) buf retr outfd) as [retw outfd1].
  destruct Hw as [(Hneg & -> & ->) | (Hw0 & Hw & ->)].
  2: assert (Hw1 : retw <= retr) by lia; clear Hw.
  { (* the write fails: what was read is lost *)
    cbn [Z.leb Z.compare Z.opp].
    exists 0, (skipn (Z.to_nat retr) infd), buf.
    rewrite Z.add_0_r. cbn [Z.to_nat firstn skipn]. rewrite app_nil_r.
    repeat split; try lia. symmetry. apply firstn_skipn. }
  assert (Hchunk : firstn (Z.to_nat retw) buf = firstn (Z.to_nat retw) infd).
  { unfold buf. rewrite firstn_firstn. f_equal. lia. }
  assert (Hlost : skipn (Z.to_nat retw) infd
                  = skipn (Z.to_nat retw) buf ++ skipn (Z.to_nat retr) infd).
  { rewrite <- (firstn_skipn (Z.to_nat retr) infd) at 1. fold buf.
    rewrite skipn_app.
    replace (Z.to_nat retw - length buf)%nat with 0%nat
      by (unfold zlength in Hbuf; lia).
    reflexivity. }
  destruct (retw <=? 0) eqn:Hwe.
  { (* nothing was written *)
    assert (retw = 0) by lia. subst retw.
    exists 0, (skipn (Z.to_nat retr) infd), buf.
    rewrite Z.add_0_r. cbn [Z.to_nat firstn skipn].
    repeat split; try lia. symmetry. apply firstn_skipn. }
  rewrite size_t_of_small by lia.
  destruct (retr =? retw) eqn:Heq; cbn [negb].
  - (* a full round: on to the next *)
    assert (retw = retr) by lia. subst retw.
    destruct (IH (S k) (sent + retr) (skipn (Z.to_nat retr) infd)
                (outfd ++ firstn (Z.to_nat retr) buf))
      as (n & infd' & lost & -> & Hn & Hnin & Hrest); [lia | lia |].
    assert (Hskip : zlength (skipn (Z.to_nat retr) infd) = zlength infd - retr)
      by (unfold zlength; rewrite length_skipn; unfold zlength in *; lia).
    exists (retr + n), infd', lost.
    split; [| split; [lia | split; [lia |]]].
    + f_equal. f_equal; [f_equal; lia |].
      rewrite Hchunk, <- app_assoc. f_equal.
      replace (Z.to_nat (retr + n)) with (Z.to_nat retr + Z.to_nat n)%nat by lia.
      symmetry. apply firstn_plus.
    + replace (Z.to_nat (retr + n)) with (Z.to_nat n + Z.to_nat retr)%nat by lia.
      rewrite <- skipn_skipn. exact Hrest.
  - (* a short write: the loop is left *)
    exists retw, (skipn (Z.to_nat retr) infd), (skipn (Z.to_nat retw) buf).
    rewrite Hchunk. repeat split; try lia. exact Hlost.
Qed.

(** X21.  For a positive [size], whatever [read] and [write] do,
    [qFileSend] comes to an end, returns a count [sent] between 0 and
    [size], and has appended to the output exactly the first [sent]
    bytes of the input; what it took from the input beyond them is
    lost. *)
Theorem qFileSend_prefix (rd wr : nat -> Z) (outfd infd : list byte) (size : Z) :
  0 < size <= SIZE_MAX ->
  exists sent infd' lost,
    qFileSend rd wr outfd infd size
    = Some (sent, infd', outfd ++ firstn (Z.to_nat sent) infd)
    /\ 0 <= sent <= size
    /\ sent <= zlength infd
    /\ skipn (Z.to_nat sent) infd = lost ++ infd'.
Proof.
  intros Hsize. unfold qFileSend.
  destruct (qFileSend_loop_prefix (S (Z.to_nat size)) rd wr 0 size 0 infd outfd)
    as (n & infd' & lost & H & Hn & Hin & Hrest); [exact Hsize | lia | lia |].
  exists n, infd', lost. rewrite H. repeat split; try lia. exact Hrest.
Qed.

Lemma qFileSend_prefix_sample :
  exists sent infd' lost,
    qFileSend io_pairs (fun _ => 1) [x7a] two_lines 30
    = Some (sent, infd', [x7a] ++ firstn (Z.to_nat sent) two_lines)
    /\ 0 <= sent <= 30
    /\ sent <= zlength two_lines
    /\ skipn (Z.to_nat sent) two_lines = lost ++ infd'.
Proof.
  apply (qFileSend_prefix io_pairs (fun _ => 1) [x7a] two_lines 30).
  split; [reflexivity | discriminate].
Defined.

(** The loop of [qFileSend] when no [read] and no [write] is cut short
    or fails. *)
Lemma qFileSend_loop_full (fuel : nat) (rd wr : nat -> Z) (k : nat)
    (size sent : Z) (infd outfd : list byte) :
  (forall j, Q_FILESEND_CHUNK_SIZE <= rd j) ->
  (forall j, Q_FILESEND_CHUNK_SIZE <= wr j) ->
  0 < size <= SIZE_MAX ->
  0 <= sent <= size ->
  (Z.to_nat (size - sent) < fuel)%nat ->
  qFileSend_loop fuel rd wr k size sent infd outfd
  = Some (sent + Z.min (size - sent) (zlength infd),
          skipn (Z.to_nat (Z.min (size - sent) (zlength infd))) infd,
          outfd ++ firstn (Z.to_nat (Z.min (size - sent) (zlength infd))) infd).
Proof.
  intros Hrd Hwr Hsize. revert k sent infd outfd.
  induction fuel as [|fuel IH]; intros k sent infd outfd Hsent Hfuel; [lia |].
  pose proof (zlength_nonneg infd) as Hin.
  cbn [qFileSend_loop]. replace (size =? 0) with false by lia. cbn [orb].
  destruct (sent <? size) eqn:Hlt.
  2:{ replace (Z.min (size - sent) (zlength infd)) with 0 by lia.
      rewrite Z.add_0_r. cbn [Z.to_nat firstn skipn]. rewrite app_nil_r.
      reflexivity. }
  rewrite size_t_of_small by lia.
  set (sendsize := if size - sent <=? Q_FILESEND_CHUNK_SIZE
                   then size - sent else Q_FILESEND_CHUNK_SIZE).
  assert (Hsend : sendsize = Z.min (size - sent) Q_FILESEND_CHUNK_SIZE).
  { unfold sendsize. destruct (size - sent <=? Q_FILESEND_CHUNK_SIZE) eqn:E; lia. }
  assert (Hchunk : 0 < Q_FILESEND_CHUNK_SIZE) by reflexivity.
  specialize (Hrd k). specialize (Hwr k).
  pose proof (sys_read_spec (rd k) sendsize infd) as Hr.
  destruct (sys_read (rd k) sendsize infd) as [[retr buf] infd1].
  destruct Hr as [(Hneg & -> & ->) | (Hr0 & Hr & -> & ->)]; [lia | |].
  { exfalso. lia. }
  assert (Hretr : retr = Z.min sendsize (zlength infd)) by lia. clear Hr.
  destruct (retr <=? 0) eqn:Hre.
  { assert (Hz : zlength infd = 0) by lia.
    replace (Z.min (size - sent) (zlength infd)) with 0 by lia.
    replace retr with 0 by lia.
    rewrite Z.add_0_r. cbn [Z.to_nat firstn skipn]. rewrite app_nil_r.
    reflexivity. }
  set (buf := firstn (Z.to_nat retr) infd).
  assert (Hbuf : retr = zlength buf).
  { unfold buf, zlength. rewrite length_firstn. unfold zlength in *. lia. }
  pose proof (sys_write_spec (wr k) buf retr outfd Hbuf) as Hw.
  destruct (sys_write (wr k) buf retr outfd) as [retw outfd1].
  destruct Hw as [(Hneg & -> & ->) | (Hw0 & Hw & ->)].
  { exfalso. lia. }
  assert (Hretw : retw = retr) by lia. clear Hw. subst retw.
  rewrite Hre. rewrite size_t_of_small by lia.
  rewrite Z.eqb_refl. cbn [negb].
  rewrite IH by lia.
  assert (Hskip : zlength (skipn (Z.to_nat retr) infd) = zlength infd - retr)
    by (unfold zlength; rewrite length_skipn; unfold zlength in *; lia).
  rewrite Hskip.
  set (n' := Z.min (size - (sent + retr)) (zlength infd - retr)).
  replace (Z.min (size - sent) (zlength infd)) with (retr + n') by lia.
  replace (Z.to_nat (retr + n')) with (Z.to_nat retr + Z.to_nat n')%nat by lia.
  replace (sent + retr + n') with (sent + (retr + n')) by lia.
  rewrite skipn_skipn, (Nat.add_comm (Z.to_nat n')), firstn_plus, <- app_assoc.
  unfold buf. rewrite firstn_firstn, Nat.min_id. reflexivity.
Qed.

(** X22.  When no [read] and no [write] is cut short below the chunk
    size or fails, [qFileSend] with a positive [size] moves
    [min size (length of the input)] bytes: the output gains exactly the
    first that many bytes of the input, the input keeps the rest, and
    the count is the result. *)
Theorem qFileSend_complete (rd wr : nat -> Z) (outfd infd : list byte) (size : Z) :
  (forall j, Q_FILESEND_CHUNK_SIZE <= rd j) ->
  (forall j, Q_FILESEND_CHUNK_SIZE <= wr j) ->
  0 < size <= SIZE_MAX ->
  let n := Z.min size (zlength infd) in
  qFileSend rd wr outfd infd size
  = Some (n, skipn (Z.to_nat n) infd, outfd ++ firstn (Z.to_nat n) infd).
Proof.
  intros Hrd Hwr Hsize. cbv zeta. unfold qFileSend.
  rewrite qFileSend_loop_full by (try assumption; lia).
  rewrite Z.sub_0_r. reflexivity.
Qed.

Lemma io_full_ok (j : nat) : Q_FILESEND_CHUNK_SIZE <= io_full j.
Proof. apply Z.le_refl. Qed.

Lemma qFileSend_complete_sample :
  qFileSend io_full io_full [x7a] two_lines 3
  = Some (3, [x63; x64], [x7a; x61; x62; x0a]).
Proof.
  apply (qFileSend_complete io_full io_full [x7a] two_lines 3 io_full_ok io_full_ok).
  split; [reflexivity | discriminate].
Defined.

(** ** Locking *)

(** X23.  [qFileUnlock] asks [flock] for [LOCK_EX], as [qFileLock]
    does: it never releases a lock.  Every descriptor that held a lock
    before the call holds one after it, and when the call reports
    success the descriptor it was given holds a lock too. *)
Theorem qFileUnlock_keeps_locks (locked : Z -> bool) (fd sys : Z) :
  qFileUnlock locked fd sys = qFileLock locked fd sys
  /\ (forall d, locked d = true -> snd (qFileUnlock locked fd sys) d = true)
  /\ (fst (qFileUnlock locked fd sys) = true ->
      snd (qFileUnlock locked fd sys) fd = true).
Proof.
  split; [reflexivity |]. unfold qFileUnlock, flock.
  destruct (sys =? 0) eqn:E; cbn [fst snd Z.eqb].
  - split.
    + intros d Hd. destruct (d =? fd); [reflexivity | exact Hd].
    + intros _. rewrite Z.eqb_refl. reflexivity.
  - split; [intros d Hd; destruct (sys =? 0); exact Hd |].
    rewrite E. discriminate.
Qed.

Lemma qFileUnlock_keeps_locks_sample :
  snd (qFileUnlock (snd (qFileLock no_locks 3 0)) 3 0) 3 = true.
Proof.
  apply (proj1 (proj2 (qFileUnlock_keeps_locks (snd (qFileLock no_locks 3 0)) 3 0))).
  reflexivity.
Defined.
